(** * simple-pixel-sprite-generator: pixelation and spritemap layout

    A shallow embedding of [simple-pixel-sprite-generator.py]:
    [pixelate_image] (downsample, upsample, optional auto-contrast) and
    [generate_spritemap] (grid layout and pasting), with the Python
    arithmetic the two functions rely on: floor division on unbounded
    integers, IEEE-754 binary64 for [math.sqrt] and [/], [math.ceil].

    Pillow's C kernels (resampling, the auto-contrast lookup table, mode
    conversion) are not part of the program; they are the methods of the
    class [ImagingCore], and every theorem holds for each instance. *)

From Stdlib Require Import ZArith List Ascii String Bool Lia.
From Stdlib Require Import SpecFloat.
Import ListNotations.

Local Open Scope Z_scope.

(** ** Exceptions and results *)

(** The Python exceptions the modelled code can raise, with their message. *)
Inductive exn : Type :=
| ZeroDivisionError (msg : string)
| ValueError (msg : string)
| OverflowError (msg : string)
| OSError (msg : string)
| NotImplementedError (msg : string).

Definition exn_str (e : exn) : string :=
  match e with
  | ZeroDivisionError m | ValueError m | OverflowError m
  | OSError m | NotImplementedError m => m
  end.

Inductive result (A : Type) : Type :=
| Ok (a : A)
| Err (e : exn).
Arguments Ok {A} a.
Arguments Err {A} e.

Definition bind {A B} (r : result A) (k : A -> result B) : result B :=
  match r with
  | Ok a => k a
  | Err e => Err e
  end.

Declare Scope result_scope.
Delimit Scope result_scope with result.
Notation "x <- r ;; k" := (bind r (fun x => k))
  (at level 100, r at next level, right associativity) : result_scope.
Notation "' p <- r ;; k" := (bind r (fun p => k))
  (at level 100, p pattern, r at next level, right associativity) : result_scope.
Local Open Scope result_scope.

Definition is_ok {A} (r : result A) : bool :=
  match r with Ok _ => true | Err _ => false end.

Definition is_ZeroDivisionError (e : exn) : bool :=
  match e with ZeroDivisionError _ => true | _ => false end.

Definition is_OSError (e : exn) : bool :=
  match e with OSError _ => true | _ => false end.

(** [raises r kind]: the computation ends in an exception of that kind. *)
Definition raises {A} (r : result A) (kind : exn -> bool) : Prop :=
  exists e, r = Err e /\ kind e = true.

(** ** Python integer arithmetic *)

(** [a // b]: floor division, [ZeroDivisionError] for a zero divisor.
    [Z.div] rounds towards minus infinity for either sign of the divisor, as
    Python does. *)
Definition floordiv (a b : Z) : result Z :=
  if b =? 0 then Err (ZeroDivisionError "integer division or modulo by zero")
  else Ok (a / b).

(** [a % b], with the sign of the divisor. *)
Definition pymod (a b : Z) : result Z :=
  if b =? 0 then Err (ZeroDivisionError "integer division or modulo by zero")
  else Ok (a mod b).

(** [max(xs)] on a list of integers: [ValueError] on the empty list. *)
Definition py_max (xs : list Z) : result Z :=
  match xs with
  | [] => Err (ValueError "max() arg is an empty sequence")
  | x :: rest => Ok (fold_left Z.max rest x)
  end.

(** ** Python floats: IEEE-754 binary64 *)

Module Float64.

Definition prec : Z := 53.
Definition emax : Z := 1024.

Definition float : Type := spec_float.

(** Conversion of an [int] to a [float] (as [math.sqrt] does to its
    argument): correctly rounded, [OverflowError] beyond the range. *)
Definition of_int (n : Z) : result float :=
  match binary_normalize prec emax n 0 false with
  | S754_infinity _ => Err (OverflowError "int too large to convert to float")
  | f => Ok f
  end.

(** [math.sqrt]. *)
Definition sqrt (x : float) : result float :=
  match SFsqrt prec emax x with
  | S754_nan =>
      match x with
      | S754_nan => Ok S754_nan
      | _ => Err (ValueError "math domain error")
      end
  | f => Ok f
  end.

(** An [int] as an unrounded operand of the division. *)
Definition exact (n : Z) : float :=
  match n with
  | Z0 => S754_zero false
  | Zpos m => S754_finite false m 0
  | Zneg m => S754_finite true m 0
  end.

(** [a / b] on two [int]s: the correctly rounded quotient of the two
    integers, [ZeroDivisionError] for a zero divisor, [OverflowError] when
    the quotient is beyond the range. *)
Definition truediv (a b : Z) : result float :=
  if b =? 0 then Err (ZeroDivisionError "division by zero")
  else
    match SFdiv prec emax (exact a) (exact b) with
    | S754_infinity _ | S754_nan =>
        Err (OverflowError "integer division result too large for a float")
    | f => Ok f
    end.

(** The least integer not below [m * 2^e]. *)
Definition ceil_scaled (m e : Z) : Z :=
  if 0 <=? e then m * 2 ^ e else - ((- m) / 2 ^ (- e)).

(** [math.ceil] on a [float]. *)
Definition ceil (x : float) : result Z :=
  match x with
  | S754_zero _ => Ok 0
  | S754_finite false m e => Ok (ceil_scaled (Zpos m) e)
  | S754_finite true m e => Ok (ceil_scaled (Zneg m) e)
  | S754_infinity _ => Err (OverflowError "cannot convert float infinity to integer")
  | S754_nan => Err (ValueError "cannot convert float NaN to integer")
  end.

End Float64.

(** [cols = math.ceil(math.sqrt(count))], [rows = math.ceil(count / cols)]. *)
Definition grid_shape (count : Z) : result (Z * Z) :=
  fcount <- Float64.of_int count ;;
  root <- Float64.sqrt fcount ;;
  cols <- Float64.ceil root ;;
  quot <- Float64.truediv count cols ;;
  rows <- Float64.ceil quot ;;
  Ok (cols, rows).

(** The exact values the two float expressions stand for. *)
Definition ceil_sqrt (n : Z) : Z :=
  let r := Z.sqrt n in if r * r =? n then r else r + 1.

Definition ceil_div (a b : Z) : Z := - ((- a) / b).

(** ** Images *)

(** Pillow's standard modes. *)
Inductive Mode : Type :=
| Mode_1 | Mode_L | Mode_LA | Mode_P | Mode_PA | Mode_RGB | Mode_RGBA
| Mode_CMYK | Mode_YCbCr | Mode_LAB | Mode_HSV | Mode_I | Mode_F.

Definition Mode_eqb (a b : Mode) : bool :=
  match a, b with
  | Mode_1, Mode_1 | Mode_L, Mode_L | Mode_LA, Mode_LA | Mode_P, Mode_P
  | Mode_PA, Mode_PA | Mode_RGB, Mode_RGB | Mode_RGBA, Mode_RGBA
  | Mode_CMYK, Mode_CMYK | Mode_YCbCr, Mode_YCbCr | Mode_LAB, Mode_LAB
  | Mode_HSV, Mode_HSV | Mode_I, Mode_I | Mode_F, Mode_F => true
  | _, _ => false
  end.

Definition mode_name (m : Mode) : string :=
  match m with
  | Mode_1 => "1" | Mode_L => "L" | Mode_LA => "LA" | Mode_P => "P"
  | Mode_PA => "PA" | Mode_RGB => "RGB" | Mode_RGBA => "RGBA"
  | Mode_CMYK => "CMYK" | Mode_YCbCr => "YCbCr" | Mode_LAB => "LAB"
  | Mode_HSV => "HSV" | Mode_I => "I" | Mode_F => "F"
  end.

(** The modes whose last band is an alpha channel. *)
Definition has_alpha (m : Mode) : bool :=
  match m with
  | Mode_LA | Mode_PA | Mode_RGBA => true
  | _ => false
  end.

(** A pixel is the list of its band samples. *)
Definition pixel : Type := list Z.

(** An image: mode, size and the pixel at each coordinate.  Images are
    values: [copy] and every transform yield a new one. *)
Record Image : Type := {
  mode : Mode;
  width : Z;
  height : Z;
  getpixel : Z -> Z -> pixel
}.

Definition size (im : Image) : Z * Z := (width im, height im).

(** Pillow has no image of negative width or height. *)
Definition valid_image (im : Image) : bool :=
  (0 <=? width im) && (0 <=? height im).

Definition copy (im : Image) : Image := im.

(** The alpha sample of a pixel of an image with an alpha channel. *)
Definition alpha (im : Image) (x y : Z) : Z := last (getpixel im x y) 0.

Inductive Resampling : Type := NEAREST | BILINEAR.

(** What the program takes from Pillow's C core: the resampling kernels
    (used by [resize] when the size changes), the table [autocontrast]
    builds from the histogram, and mode conversion (used by [paste]). *)
Class ImagingCore : Type := {
  resample : Resampling -> Image -> Z -> Z -> Image;
  resample_mode : forall f im w h, mode (resample f im w h) = mode im;
  resample_width : forall f im w h, width (resample f im w h) = w;
  resample_height : forall f im w h, height (resample f im w h) = h;
  autocontrast_lut : Image -> list Z;
  convert : Image -> Mode -> Image
}.

Section Pillow.
Context {core : ImagingCore}.

(** [Image.resize(size, resample)]: a copy when the size is the image's
    own, [ValueError] for an empty target, the kernel otherwise. *)
Definition resize (im : Image) (sz : Z * Z) (f : Resampling) : result Image :=
  let '(w, h) := sz in
  if (w =? width im) && (h =? height im) then Ok (copy im)
  else if (w <? 1) || (h <? 1) then
    Err (ValueError "height and width must be > 0")
  else Ok (resample f im w h).

(** [Image.point(lut)] on 8-bit bands: sample [v] of band [b] becomes
    [lut[256*b + v]]. *)
Fixpoint point_bands (lut : list Z) (b : Z) (px : pixel) : pixel :=
  match px with
  | [] => []
  | v :: rest => nth (Z.to_nat (256 * b + v)) lut 0 :: point_bands lut (b + 1) rest
  end.

Definition point (im : Image) (lut : list Z) : Image :=
  {| mode := mode im; width := width im; height := height im;
     getpixel := fun x y => point_bands lut 0 (getpixel im x y) |}.

(** [ImageOps._lut]: only modes L and RGB are looked up. *)
Definition ImageOps_lut (im : Image) (lut : list Z) : result Image :=
  match mode im with
  | Mode_P => Err (NotImplementedError "mode P support coming soon")
  | Mode_L => Ok (point im lut)
  | Mode_RGB =>
      Ok (point im (if (Z.of_nat (List.length lut) =? 256) then (lut ++ lut ++ lut)%list else lut))
  | m => Err (OSError ("not supported for mode " ++ mode_name m)%string)
  end.

(** [ImageOps.autocontrast(image)]. *)
Definition autocontrast (im : Image) : result Image :=
  ImageOps_lut im (autocontrast_lut im).

(** The modes for which [ImageOps.autocontrast] returns an image. *)
Definition autocontrast_supported (m : Mode) : bool :=
  match m with Mode_L | Mode_RGB => true | _ => false end.

(** *** pixelate_image *)

Record pixelate_locals : Type := {
  new_width : Z;
  new_height : Z;
  small_image : Image;
  pixelated_image : Image
}.

(** Lines 28-31: the two resizes. *)
Definition pixelate_resize (image : Image) (pixel_size : Z) : result pixelate_locals :=
  qw <- floordiv (width image) pixel_size ;;
  let new_width := Z.max 1 qw in
  qh <- floordiv (height image) pixel_size ;;
  let new_height := Z.max 1 qh in
  small_image <- resize image (new_width, new_height) BILINEAR ;;
  pixelated_image <- resize small_image (size image) NEAREST ;;
  Ok {| new_width := new_width; new_height := new_height;
        small_image := small_image; pixelated_image := pixelated_image |}.

Definition pixelate_image (image : Image) (pixel_size : Z) (auto_adjust : bool)
  : result Image :=
  st <- pixelate_resize image pixel_size ;;
  if auto_adjust then autocontrast (pixelated_image st)
  else Ok (pixelated_image st).

(** *** generate_spritemap *)

(** [Image.new(mode, size, color)]. *)
Definition Image_new (m : Mode) (sz : Z * Z) (color : pixel) : result Image :=
  let '(w, h) := sz in
  if (w <? 0) || (h <? 0) then Err (ValueError "Width and height must be >= 0")
  else Ok {| mode := m; width := w; height := h; getpixel := fun _ _ => color |}.

(** The pixels a paste of [im] at [(x, y)] covers. *)
Definition in_box (im : Image) (x y px py : Z) : bool :=
  (x <=? px) && (px <? x + width im) && (y <=? py) && (py <? y + height im).

Definition in_image (im : Image) (px py : Z) : bool :=
  (0 <=? px) && (px <? width im) && (0 <=? py) && (py <? height im).

(** The image in mode [m]: itself, or its conversion. *)
Definition as_mode (im : Image) (m : Mode) : Image :=
  if Mode_eqb (mode im) m then im else convert im m.

(** [canvas.paste(im, (x, y))]: the box has the size of [im], is clipped
    to the canvas, and receives the pixels of [im] converted to the mode
    of the canvas. *)
Definition paste (canvas im : Image) (box : Z * Z) : Image :=
  let '(x, y) := box in
  let src := as_mode im (mode canvas) in
  {| mode := mode canvas; width := width canvas; height := height canvas;
     getpixel := fun px py =>
       if in_box im x y px py && in_image canvas px py
       then getpixel src (px - x) (py - y)
       else getpixel canvas px py |}.

(** What the function prints and writes. *)
Inductive event : Type :=
| Print (line : string)
| Save (path : string) (im : Image).

Definition is_save (ev : event) : bool :=
  match ev with Save _ _ => true | Print _ => false end.

Fixpoint ends_with_slash (s : string) : bool :=
  match s with
  | EmptyString => false
  | String c EmptyString => Ascii.eqb c "/"%char
  | String _ rest => ends_with_slash rest
  end.

(** [os.path.join(a, b)] (POSIX). *)
Definition path_join (a b : string) : string :=
  if String.prefix "/" b then b
  else if (String.eqb a "") || ends_with_slash a then (a ++ b)%string
  else (a ++ "/" ++ b)%string.

(** Lines 103-114: the images that open, in the order of the paths; a
    path that does not open is reported and skipped. *)
Fixpoint load_images (open : string -> result Image) (image_paths : list string)
  : list Image * list event :=
  match image_paths with
  | [] => ([], [])
  | path :: rest =>
      let '(images, out) := load_images open rest in
      match open path with
      | Ok img => (copy img :: images, out)
      | Err e =>
          (images,
           Print ("Error opening " ++ path ++ " for spritemap: " ++ exn_str e)%string :: out)
      end
  end.

Record layout : Type := {
  cell_width : Z;
  cell_height : Z;
  count : Z;
  cols : Z;
  rows : Z;
  spritemap_width : Z;
  spritemap_height : Z
}.

(** Lines 120-126. *)
Definition spritemap_layout (images : list Image) : result layout :=
  cell_width <- py_max (map width images) ;;
  cell_height <- py_max (map height images) ;;
  let count := Z.of_nat (List.length images) in
  '(cols, rows) <- grid_shape count ;;
  Ok {| cell_width := cell_width; cell_height := cell_height; count := count;
        cols := cols; rows := rows;
        spritemap_width := cols * cell_width;
        spritemap_height := rows * cell_height |}.

(** [enumerate(images)]. *)
Fixpoint enumerate {A : Type} (start : Z) (l : list A) : list (Z * A) :=
  match l with
  | [] => []
  | a :: rest => (start, a) :: enumerate (start + 1) rest
  end.

(** Lines 130-131: where the image of index [idx] goes. *)
Definition position (lay : layout) (idx : Z) (img : Image) : result (Z * Z) :=
  col <- pymod idx (cols lay) ;;
  row <- floordiv idx (cols lay) ;;
  cx <- floordiv (cell_width lay - width img) 2 ;;
  cy <- floordiv (cell_height lay - height img) 2 ;;
  Ok (col * cell_width lay + cx, row * cell_height lay + cy).

(** The pastes of the loop of lines 129-132, in the order they are made. *)
Fixpoint placements (lay : layout) (items : list (Z * Image))
  : result (list (Image * (Z * Z))) :=
  match items with
  | [] => Ok []
  | (idx, img) :: rest =>
      xy <- position lay idx img ;;
      tail <- placements lay rest ;;
      Ok ((img, xy) :: tail)
  end.

Definition paste_all (spritemap : Image) (ops : list (Image * (Z * Z))) : Image :=
  fold_left (fun sm op => paste sm (fst op) (snd op)) ops spritemap.

(** Lines 120-132: the canvas with every image pasted. *)
Definition build_spritemap (images : list Image) : result Image :=
  lay <- spritemap_layout images ;;
  spritemap <- Image_new Mode_RGBA (spritemap_width lay, spritemap_height lay)
                 [0; 0; 0; 0] ;;
  ops <- placements lay (enumerate 0 images) ;;
  Ok (paste_all spritemap ops).

(** [open] is [Image.open] on the file system the function runs in.  The
    function returns [None] on every path; what it does is its output. *)
Definition generate_spritemap (open : string -> result Image)
    (image_paths : list string) (output_dir spritemap_name : string)
  : list event * result unit :=
  match image_paths with
  | [] => ([Print "No images to generate a spritemap."], Ok tt)
  | _ =>
      let '(images, out) := load_images open image_paths in
      match images with
      | [] => ((out ++ [Print "No valid images found for the spritemap."])%list, Ok tt)
      | _ =>
          match build_spritemap images with
          | Err e => (out, Err e)
          | Ok spritemap =>
              let spritemap_path := path_join output_dir spritemap_name in
              ((out ++ [Save spritemap_path spritemap;
                        Print ("Spritemap saved: " ++ spritemap_path)%string])%list,
               Ok tt)
          end
      end
  end.

End Pillow.

(** ** A reference core

    An instance of [ImagingCore] in integer arithmetic: point sampling for
    NEAREST, the mean of the source box for BILINEAR, a linear stretch of
    each band for the auto-contrast table.  It shows that the class is
    inhabited and gives the examples something to run on. *)

Module Reference.

Definition range (n : Z) : list Z := map Z.of_nat (seq 0 (Z.to_nat n)).

Definition sample_nearest (im : Image) (w h : Z) : Image :=
  {| mode := mode im; width := w; height := h;
     getpixel := fun x y =>
       getpixel im ((2 * x + 1) * width im / (2 * w))
                   ((2 * y + 1) * height im / (2 * h)) |}.

(** Source indices blended into output index [i]. *)
Definition span (i n_out n_in : Z) : list Z :=
  let lo := i * n_in / n_out in
  let hi := Z.max (lo + 1) ((i + 1) * n_in / n_out) in
  map (fun k => lo + k) (range (hi - lo)).

Fixpoint add_pixel (a b : pixel) : pixel :=
  match a, b with
  | x :: a', y :: b' => x + y :: add_pixel a' b'
  | [], _ => b
  | _, [] => a
  end.

Definition mean (pxs : list pixel) : pixel :=
  map (fun s => s / Z.of_nat (List.length pxs)) (fold_right add_pixel [] pxs).

Definition box_average (im : Image) (w h : Z) : Image :=
  {| mode := mode im; width := w; height := h;
     getpixel := fun x y =>
       mean (flat_map (fun sy => map (fun sx => getpixel im sx sy)
                                     (span x w (width im)))
                      (span y h (height im))) |}.

Definition bands (m : Mode) : nat :=
  match m with
  | Mode_1 | Mode_L | Mode_P | Mode_I | Mode_F => 1
  | Mode_LA | Mode_PA => 2
  | Mode_RGB | Mode_YCbCr | Mode_LAB | Mode_HSV => 3
  | Mode_RGBA | Mode_CMYK => 4
  end.

Definition band_samples (im : Image) (b : nat) : list Z :=
  flat_map (fun y => map (fun x => nth b (getpixel im x y) 0) (range (width im)))
           (range (height im)).

Definition stretch (lo hi ix : Z) : Z :=
  if hi <=? lo then ix
  else Z.max 0 (Z.min 255 ((ix - lo) * 255 / (hi - lo))).

Definition band_lut (im : Image) (b : nat) : list Z :=
  let s := band_samples im b in
  map (stretch (fold_right Z.min 255 s) (fold_right Z.max 0 s)) (range 256).

Definition lut (im : Image) : list Z :=
  flat_map (band_lut im) (seq 0 (bands (mode im))).

Definition to_rgba (m : Mode) (p : pixel) : pixel :=
  match m, p with
  | Mode_L, [v] => [v; v; v; 255]
  | Mode_LA, [v; a] => [v; v; v; a]
  | Mode_RGB, [r; g; b] => [r; g; b; 255]
  | _, _ => p
  end.

Definition of_rgba (m : Mode) (p : pixel) : pixel :=
  match m, p with
  | Mode_L, [r; g; b; _] => [(r * 299 + g * 587 + b * 114) / 1000]
  | Mode_LA, [r; g; b; a] => [(r * 299 + g * 587 + b * 114) / 1000; a]
  | Mode_RGB, [r; g; b; _] => [r; g; b]
  | _, _ => p
  end.

Definition convert_mode (im : Image) (m : Mode) : Image :=
  {| mode := m; width := width im; height := height im;
     getpixel := fun x y => of_rgba m (to_rgba (mode im) (getpixel im x y)) |}.

Definition kernel (f : Resampling) (im : Image) (w h : Z) : Image :=
  match f with
  | NEAREST => sample_nearest im w h
  | BILINEAR => box_average im w h
  end.

#[export] Instance core : ImagingCore := {|
  resample := kernel;
  resample_mode := fun f im w h =>
    match f with NEAREST => eq_refl | BILINEAR => eq_refl end;
  resample_width := fun f im w h =>
    match f with NEAREST => eq_refl | BILINEAR => eq_refl end;
  resample_height := fun f im w h =>
    match f with NEAREST => eq_refl | BILINEAR => eq_refl end;
  autocontrast_lut := lut;
  convert := convert_mode
|}.

(** An image of one colour. *)
Definition solid (m : Mode) (w h : Z) (p : pixel) : Image :=
  {| mode := m; width := w; height := h; getpixel := fun _ _ => p |}.

(** A colour ramp, a translucent square and a grey square. *)
Definition ramp : Image :=
  {| mode := Mode_RGB; width := 5; height := 4;
     getpixel := fun x y => [40 * x; 50 * y; 7] |}.

Definition badge : Image := solid Mode_RGBA 4 4 [200; 100; 50; 128].

Definition grey100 : Image := solid Mode_L 100 100 [90].

(** A file system holding the images of the example of the
    specification, sizes 10x10, 8x8, 10x6 and 8x10. *)
Definition sprites : list Image :=
  [ solid Mode_RGBA 10 10 [255; 0; 0; 255];
    solid Mode_RGBA 8 8 [0; 255; 0; 255];
    solid Mode_RGBA 10 6 [0; 0; 255; 255];
    solid Mode_RGBA 8 10 [255; 255; 0; 128] ].

Definition sprite_paths : list string := ["a.png"; "b.png"; "c.png"; "d.png"]%string.

(** A directory listing with one file that does not open. *)
Definition listing : list string :=
  ["a.png"; "missing.tga"; "b.png"; "c.png"; "d.png"]%string.

Definition open (path : string) : result Image :=
  match find (fun e => String.eqb (fst e) path) (combine sprite_paths sprites) with
  | Some e => Ok (snd e)
  | None => Err (OSError ("No such file or directory: " ++ path)%string)
  end.

End Reference.

(** * The driver: discovery, per-file processing, main *)

(** ** Python strings *)

Local Open Scope string_scope.
Local Open Scope Z_scope.

(** [str.lower] on one character (ASCII letters; no other character
    lowers to a letter of the supported extensions or to a dot). *)
Definition lower_char (c : ascii) : ascii :=
  let n := nat_of_ascii c in
  if (Nat.leb 65 n && Nat.leb n 90)%bool then ascii_of_nat (n + 32) else c.

Fixpoint lower (s : string) : string :=
  match s with
  | EmptyString => EmptyString
  | String c rest => String (lower_char c) (lower rest)
  end.

(** [s[n:]] and [s[:n]]. *)
Fixpoint drop (n : nat) (s : string) : string :=
  match n, s with
  | O, _ => s
  | S _, EmptyString => EmptyString
  | S n', String _ rest => drop n' rest
  end.

Fixpoint take (n : nat) (s : string) : string :=
  match n, s with
  | O, _ => EmptyString
  | S _, EmptyString => EmptyString
  | S n', String c rest => String c (take n' rest)
  end.

(** [s.endswith(suffix)]. *)
Definition endswith (s suffix : string) : bool :=
  (Nat.leb (String.length suffix) (String.length s)
   && String.eqb (drop (String.length s - String.length suffix) s) suffix)%bool.

(** [s.endswith(suffixes)] for a tuple of suffixes. *)
Definition endswith_any (s : string) (suffixes : list string) : bool :=
  existsb (endswith s) suffixes.

(** [s.rfind(c)]: the last index of the character, or -1. *)
Fixpoint rfind_from (c : ascii) (s : string) (i : Z) : Z :=
  match s with
  | EmptyString => -1
  | String a rest =>
      let k := rfind_from c rest (i + 1) in
      if 0 <=? k then k else if Ascii.eqb a c then i else -1
  end.

Definition rfind (c : ascii) (s : string) : Z := rfind_from c s 0.

(** [os.path.basename(p)]: what follows the last slash. *)
Definition basename (p : string) : string :=
  drop (Z.to_nat (rfind "/" p + 1)) p.

Fixpoint all_dots (s : string) : bool :=
  match s with
  | EmptyString => true
  | String c rest => (Ascii.eqb c "." && all_dots rest)%bool
  end.

(** [os.path.splitext(p)]: split at the last dot, when it comes after the
    last slash and after a character of the file name that is not a dot. *)
Definition splitext (p : string) : string * string :=
  let sepIndex := rfind "/" p in
  let dotIndex := rfind "." p in
  if ((dotIndex >? sepIndex)
      && negb (all_dots (substring (Z.to_nat (sepIndex + 1))
                                   (Z.to_nat (dotIndex - sepIndex - 1)) p)))%bool
  then (take (Z.to_nat dotIndex) p, drop (Z.to_nat dotIndex) p)
  else (p, "").

(** Python truth of a [str] or [None]. *)
Definition truthy (o : option string) : bool :=
  match o with
  | Some s => negb (String.eqb s "")
  | None => false
  end.

Definition SUPPORTED_EXTENSIONS : list string := [".png"; ".tga"].

(** ** The file system

    What the driver asks of the operating system and of Pillow's codecs.
    The world is threaded through the calls that change it. *)
Class FileSystem (World : Type) : Type := {
  path_exists : World -> string -> bool;
  isfile : World -> string -> bool;
  isdir : World -> string -> bool;
  listdir : World -> string -> result (list string);
  makedirs : World -> string -> World * result unit;
  image_open : World -> string -> result Image;
  image_save : World -> string -> Image -> World * result unit
}.

(** The parsed command line. *)
Record Args : Type := {
  args_input : string;
  args_output : string;
  args_pixel_size : Z;
  args_spritemap : bool;
  args_auto_adjust : bool
}.

(** How [main] ends: it returns, calls [sys.exit], or lets an exception
    escape. *)
Inductive outcome : Type :=
| Finished
| SysExit (status : Z)
| Uncaught (e : exn).

(** The paths written, in the order they are written. *)
Definition saved_paths (evs : list event) : list string :=
  flat_map (fun ev => match ev with Save path _ => [path] | Print _ => [] end) evs.

(** The images written, in the order they are written. *)
Definition saved_images (evs : list event) : list Image :=
  flat_map (fun ev => match ev with Save _ im => [im] | Print _ => [] end) evs.

(** [subseq l1 l2]: [l1] is [l2] with some elements left out. *)
Inductive subseq {A : Type} : list A -> list A -> Prop :=
| subseq_nil : subseq [] []
| subseq_skip (a : A) (l1 l2 : list A) : subseq l1 l2 -> subseq l1 (a :: l2)
| subseq_take (a : A) (l1 l2 : list A) : subseq l1 l2 -> subseq (a :: l1) (a :: l2).

Section Driver.
Context {core : ImagingCore} {World : Type} {fs : FileSystem World}.

(** The name of the file [process_single_image] writes (lines 48-50). *)
Definition output_path_of (filepath output_dir : string) : string :=
  let base_name := basename filepath in
  let name := fst (splitext base_name) in
  path_join output_dir (name ++ "_pixelated.png").

(** Lines 38-59.  Every exception is caught and reported; the result is
    the path written, or [None]. *)
Definition process_single_image (w : World) (filepath output_dir : string)
    (pixel_size : Z) (auto_adjust : bool) : World * list event * option string :=
  let failed (e : exn) :=
    Print ("Error processing " ++ filepath ++ ": " ++ exn_str e) in
  match image_open w filepath with
  | Err e => (w, [failed e], None)
  | Ok img =>
      let processing := Print ("Processing " ++ filepath ++ "...") in
      match pixelate_image img pixel_size auto_adjust with
      | Err e => (w, [processing; failed e], None)
      | Ok result =>
          let output_path := output_path_of filepath output_dir in
          match image_save w output_path result with
          | (w', Err e) => (w', [processing; failed e], None)
          | (w', Ok _) =>
              (w', [processing; Save output_path result;
                    Print ("Saved: " ++ output_path)], Some output_path)
          end
      end
  end.

(** The loop of lines 76-80 over the entries of a directory. *)
Fixpoint scan_entries (w : World) (input_path : string) (entries files : list string)
  : list string :=
  match entries with
  | [] => files
  | entry :: rest =>
      let full_path := path_join input_path entry in
      if (isfile w full_path && endswith_any (lower entry) SUPPORTED_EXTENSIONS)%bool
      then scan_entries w input_path rest (files ++ [full_path])%list
      else scan_entries w input_path rest files
  end.

(** Lines 61-86.  An exception of [os.listdir] is not caught. *)
Definition get_image_files (w : World) (input_path : string)
  : list event * result (list string) :=
  if isfile w input_path then
    if endswith_any (lower input_path) SUPPORTED_EXTENSIONS
    then ([], Ok [input_path])
    else ([Print ("File " ++ input_path ++ " does not have a supported extension.")],
          Ok [])
  else if isdir w input_path then
    match listdir w input_path with
    | Ok entries => ([], Ok (scan_entries w input_path entries []))
    | Err e => ([], Err e)
    end
  else ([Print ("Input " ++ input_path ++ " is neither a valid file nor a directory.")],
        Ok []).

(** The loop of lines 177-180. *)
Fixpoint process_files (w : World) (image_files : list string) (args : Args)
    (output_files : list string) : World * list event * list string :=
  match image_files with
  | [] => (w, [], output_files)
  | file :: rest =>
      let '(w1, out1, out_file) :=
        process_single_image w file (args_output args) (args_pixel_size args)
          (args_auto_adjust args) in
      let output_files1 :=
        if truthy out_file
        then match out_file with
             | Some p => (output_files ++ [p])%list
             | None => output_files
             end
        else output_files in
      let '(w2, out2, output_files2) := process_files w1 rest args output_files1 in
      (w2, (out1 ++ out2)%list, output_files2)
  end.

(** What [generate_spritemap] writes, carried out on the world: a save
    that fails lets its exception escape and ends the output there. *)
Fixpoint commit (w : World) (evs : list event) : World * list event * result unit :=
  match evs with
  | [] => (w, [], Ok tt)
  | Print line :: rest =>
      let '(w', out, r) := commit w rest in (w', Print line :: out, r)
  | Save path im :: rest =>
      match image_save w path im with
      | (w', Ok _) =>
          let '(w'', out, r) := commit w' rest in (w'', Save path im :: out, r)
      | (w', Err e) => (w', [], Err e)
      end
  end.

(** [generate_spritemap(image_paths, output_dir)] in a world. *)
Definition generate_spritemap_in (w : World) (image_paths : list string)
    (output_dir : string) : World * list event * result unit :=
  match generate_spritemap (image_open w) image_paths output_dir "spritemap.png" with
  | (evs, Ok _) => commit w evs
  | (evs, Err e) => (w, evs, Err e)
  end.

(** Lines 164-183, for parsed arguments. *)
Definition main (w : World) (args : Args) : World * list event * outcome :=
  let '(w0, out0, created) :=
    if path_exists w (args_output args) then (w, [], true)
    else
      match makedirs w (args_output args) with
      | (w', Ok _) => (w', [], true)
      | (w', Err e) =>
          (w', [Print ("Error creating output directory " ++ args_output args
                       ++ ": " ++ exn_str e)], false)
      end in
  if negb created then (w0, out0, SysExit 1)
  else
    match get_image_files w0 (args_input args) with
    | (out1, Err e) => (w0, (out0 ++ out1)%list, Uncaught e)
    | (out1, Ok []) =>
        (w0, (out0 ++ out1 ++ [Print "No images found to process."])%list, SysExit 1)
    | (out1, Ok image_files) =>
        let '(w2, out2, output_files) := process_files w0 image_files args [] in
        if args_spritemap args then
          let '(w3, out3, r) := generate_spritemap_in w2 output_files (args_output args) in
          (w3, (out0 ++ out1 ++ out2 ++ out3)%list,
           match r with Ok _ => Finished | Err e => Uncaught e end)
        else (w2, (out0 ++ out1 ++ out2)%list, Finished)
    end.

End Driver.

Local Close Scope string_scope.

(** ** A reference file system

    Files are a list of paths with their content (an image, or something
    that does not decode); directories a list of paths with their listing. *)

Module ReferenceFS.

Record world : Type := {
  files : list (string * option Image);
  dirs : list (string * list string)
}.

Definition lookup {A : Type} (p : string) (l : list (string * A)) : option A :=
  option_map snd (find (fun e => String.eqb (fst e) p) l).

Definition has {A : Type} (p : string) (l : list (string * A)) : bool :=
  match lookup p l with Some _ => true | None => false end.

Definition write (w : world) (p : string) (im : Image) : world * result unit :=
  ({| files := (p, Some im) :: files w; dirs := dirs w |}, Ok tt).

Definition mkdir (w : world) (p : string) : world * result unit :=
  ({| files := files w; dirs := (p, []) :: dirs w |}, Ok tt).

Definition read (w : world) (p : string) : result Image :=
  match lookup p (files w) with
  | Some (Some im) => Ok im
  | Some None => Err (OSError ("cannot identify image file " ++ p)%string)
  | None => Err (OSError ("No such file or directory: " ++ p)%string)
  end.

Definition ls (w : world) (p : string) : result (list string) :=
  match lookup p (dirs w) with
  | Some l => Ok l
  | None => Err (OSError ("No such file or directory: " ++ p)%string)
  end.

#[export] Instance fs : FileSystem world := {|
  path_exists := fun w p => has p (files w) || has p (dirs w);
  isfile := fun w p => has p (files w);
  isdir := fun w p => has p (dirs w);
  listdir := ls;
  makedirs := mkdir;
  image_open := read;
  image_save := write
|}.

(** A directory [art] with two sprites, a text file, an upper-case
    extension, a file that does not decode and a sub-directory. *)
Definition studio : world :=
  {| files := [ ("art/hero.png", Some Reference.ramp);
                ("art/notes.txt", None);
                ("art/LOGO.TGA", Some Reference.badge);
                ("art/broken.png", None);
                ("art/old/boss.png", Some Reference.grey100) ]%string;
     dirs := [ ("art", ["hero.png"; "notes.txt"; "LOGO.TGA"; "broken.png"; "old"]);
               ("art/old", ["boss.png"]);
               ("out", []) ]%string |}.

(** Command lines over the directory [art], writing to [out]. *)
Definition args_of (input : string) (pixel_size : Z) (spritemap auto_adjust : bool)
  : Args :=
  {| args_input := input; args_output := "out"; args_pixel_size := pixel_size;
     args_spritemap := spritemap; args_auto_adjust := auto_adjust |}.

End ReferenceFS.

(** * Properties *)

(** ** The float expressions of the grid are exact *)

Module FloatFacts.
Import Float64.

Lemma digits2_pos_size (p : positive) : digits2_pos p = Pos.size p.
Proof. induction p; cbn; congruence. Qed.

Lemma Zdigits2_unique (m d : Z) :
  2 ^ (d - 1) <= m < 2 ^ d -> 1 <= d -> Zdigits2 m = d.
Proof.
  intros Hm Hd.
  assert (0 < m) by (pose proof (Z.pow_pos_nonneg 2 (d - 1)); lia).
  destruct m as [|p|p]; try lia.
  cbn [Zdigits2]. rewrite digits2_pos_size.
  pose proof (Z.log2_unique (Zpos p) (d - 1) ltac:(lia)) as L.
  replace (Z.succ (d - 1)) with d in L by lia.
  specialize (L Hm). cbn [Z.log2] in L.
  destruct p; cbn [Pos.size]; lia.
Qed.

Lemma Zdigits2_bounds (m : Z) :
  0 < m -> 1 <= Zdigits2 m /\ 2 ^ (Zdigits2 m - 1) <= m < 2 ^ Zdigits2 m.
Proof.
  intros Hm. destruct m as [|p|p]; try lia.
  cbn [Zdigits2]. rewrite digits2_pos_size.
  pose proof (Z.log2_spec (Zpos p) ltac:(lia)) as L.
  assert (E : Zpos (Pos.size p) = Z.succ (Z.log2 (Zpos p))).
  { destruct p; cbn [Pos.size Z.log2]; rewrite ?Pos2Z.inj_succ; lia. }
  rewrite E. pose proof (Z.log2_nonneg (Zpos p)).
  replace (Z.succ (Z.log2 (Zpos p)) - 1) with (Z.log2 (Zpos p)) by lia.
  split; [lia|exact L].
Qed.

Lemma fexp_normal (e : Z) : -1021 <= e -> fexp prec emax e = e - 53.
Proof. unfold fexp, emin, prec, emax. lia. Qed.

Lemma shr_m_of_loc (m : Z) (l : location) : shr_m (shr_record_of_loc m l) = m.
Proof. destruct l as [|[]]; reflexivity. Qed.

Lemma loc_of_shr_of_loc (m : Z) (l : location) :
  loc_of_shr_record (shr_record_of_loc m l) = l.
Proof. destruct l as [|[]]; reflexivity. Qed.

Lemma shr_1_m (mrs : shr_record) : 0 <= shr_m mrs -> shr_m (shr_1 mrs) = shr_m mrs / 2.
Proof.
  destruct mrs as [m r s]. cbn [shr_m]. intros Hm.
  rewrite <- Z.div2_div.
  destruct m as [|[p|p|]|p]; try lia; reflexivity.
Qed.

Lemma shr_1_exact (m : Z) :
  0 <= m -> Z.even m = true ->
  shr_1 (shr_record_of_loc m loc_Exact)
  = shr_record_of_loc (m / 2) loc_Exact.
Proof.
  intros Hm He. rewrite <- Z.div2_div.
  destruct m as [|[p|p|]|p]; try lia; try discriminate; reflexivity.
Qed.

Lemma round_nearest_even_range (m : Z) (l : location) :
  m <= round_nearest_even m l <= m + 1.
Proof.
  destruct l as [|[]]; cbn; try lia. destruct (Z.even m); lia.
Qed.

Lemma shr_fexp_53 (m e : Z) (l : location) :
  2 ^ 52 <= m < 2 ^ 53 -> -1074 <= e ->
  shr_fexp prec emax m e l = (shr_record_of_loc m l, e).
Proof.
  intros Hm He. unfold shr_fexp.
  rewrite (Zdigits2_unique m 53) by (cbn; lia).
  rewrite fexp_normal by lia.
  replace (53 + e - 53 - e) with 0 by lia. reflexivity.
Qed.

Lemma shr_fexp_54 (m e : Z) (l : location) :
  2 ^ 53 <= m < 2 ^ 54 -> -1075 <= e ->
  shr_fexp prec emax m e l = (shr_1 (shr_record_of_loc m l), e + 1).
Proof.
  intros Hm He. unfold shr_fexp.
  rewrite (Zdigits2_unique m 54) by (cbn; lia).
  rewrite fexp_normal by lia.
  replace (54 + e - 53 - e) with 1 by lia. reflexivity.
Qed.

(** The second half of [binary_round_aux]: a rounded mantissa of 53 bits
    is kept, one that reached [2^53] is renormalised. *)
Lemma round_finish (m1 e : Z) :
  2 ^ 52 <= m1 <= 2 ^ 53 -> -1074 <= e <= 970 ->
  exists m' e',
    (let '(mrs, e2) := shr_fexp prec emax m1 e loc_Exact in
     match shr_m mrs with
     | Z0 => S754_zero false
     | Zpos m => if e2 <=? emax - prec then S754_finite false m e2
                 else S754_infinity false
     | Zneg _ => S754_nan
     end) = S754_finite false m' e' /\
    e <= e' <= e + 1 /\ Zpos m' * 2 ^ (e' - e) = m1 /\
    2 ^ 52 <= Zpos m' < 2 ^ 53.
Proof.
  intros Hm He.
  destruct (Z.eq_dec m1 (2 ^ 53)) as [->|Hne].
  - rewrite shr_fexp_54 by (cbn; lia).
    cbn [shr_record_of_loc shr_1 Z.pow Z.pow_pos Pos.iter Z.mul Pos.mul shr_m].
    replace (e + 1 <=? emax - prec) with true
      by (symmetry; apply Z.leb_le; unfold emax, prec; lia).
    eexists _, _. split; [reflexivity|]. split; [lia|].
    replace (e + 1 - e) with 1 by lia. split; [reflexivity|cbn; lia].
  - rewrite shr_fexp_53 by lia. rewrite shr_m_of_loc.
    replace (e <=? emax - prec) with true
      by (symmetry; apply Z.leb_le; unfold emax, prec; lia).
    destruct m1 as [|p|p]; try (cbn in Hm; lia).
    eexists _, _. split; [reflexivity|]. split; [lia|].
    rewrite Z.sub_diag. lia.
Qed.

Lemma binary_round_aux_53 (m e : Z) (l : location) :
  2 ^ 52 <= m < 2 ^ 53 -> -1074 <= e <= 970 ->
  exists m' e',
    binary_round_aux prec emax false m e l = S754_finite false m' e' /\
    e <= e' <= e + 1 /\
    Zpos m' * 2 ^ (e' - e) = round_nearest_even m l /\
    2 ^ 52 <= Zpos m' < 2 ^ 53.
Proof.
  intros Hm He. unfold binary_round_aux.
  rewrite shr_fexp_53 by lia.
  rewrite shr_m_of_loc, loc_of_shr_of_loc.
  pose proof (round_nearest_even_range m l) as R.
  apply round_finish; lia.
Qed.

Lemma binary_round_aux_54 (m e : Z) (l : location) :
  2 ^ 53 <= m < 2 ^ 54 -> -1075 <= e <= 969 ->
  exists m' e',
    binary_round_aux prec emax false m e l = S754_finite false m' e' /\
    e + 1 <= e' <= e + 2 /\
    m / 2 <= Zpos m' * 2 ^ (e' - (e + 1)) <= m / 2 + 1 /\
    (l = loc_Exact -> Z.even m = true -> Zpos m' * 2 ^ (e' - (e + 1)) = m / 2).
Proof.
  intros Hm He. unfold binary_round_aux.
  rewrite shr_fexp_54 by lia.
  set (mrs := shr_1 (shr_record_of_loc m l)).
  assert (Em : shr_m mrs = m / 2).
  { unfold mrs. rewrite shr_1_m; rewrite shr_m_of_loc; cbn in Hm; lia. }
  pose proof (round_nearest_even_range (shr_m mrs) (loc_of_shr_record mrs)) as R.
  assert (Hh : 2 ^ 52 <= m / 2 < 2 ^ 53).
  { cbn in Hm |- *. split.
    - apply Z.div_le_lower_bound; lia.
    - apply Z.div_lt_upper_bound; lia. }
  destruct (round_finish (round_nearest_even (shr_m mrs) (loc_of_shr_record mrs)) (e + 1))
    as (m' & e' & E & He' & Hv & _); try lia.
  exists m', e'. split; [exact E|]. split; [lia|]. split; [lia|].
  intros -> Hev. rewrite Hv. unfold mrs.
  rewrite shr_1_exact by (cbn in Hm; lia || assumption).
  rewrite shr_m_of_loc, loc_of_shr_of_loc. reflexivity.
Qed.

Lemma pow2_pos (k : Z) : 0 <= k -> 0 < 2 ^ k.
Proof. intros. apply Z.pow_pos_nonneg; lia. Qed.

Lemma pow2_split (a b : Z) : 0 <= a -> 0 <= b -> 2 ^ (a + b) = 2 ^ a * 2 ^ b.
Proof. intros. apply Z.pow_add_r; lia. Qed.

Lemma pow2_sum (a b c : Z) : 0 <= a -> 0 <= b -> a + b = c -> 2 ^ c = 2 ^ a * 2 ^ b.
Proof. intros Ha Hb <-. now apply pow2_split. Qed.

(** [ceil_scaled] is the ceiling of [M * 2^(k - s)]. *)
Lemma ceil_scaled_unique (M k s c : Z) :
  0 <= k -> 0 <= s ->
  (c - 1) * 2 ^ s < M * 2 ^ k <= c * 2 ^ s ->
  ceil_scaled M (k - s) = c.
Proof.
  intros Hk Hs H. unfold ceil_scaled.
  destruct (0 <=? k - s) eqn:E.
  - apply Z.leb_le in E.
    replace k with ((k - s) + s) in H by lia.
    rewrite pow2_split in H by lia.
    pose proof (pow2_pos s Hs). nia.
  - apply Z.leb_gt in E.
    replace s with ((s - k) + k) in H by lia.
    rewrite pow2_split in H by lia.
    replace (- (k - s)) with (s - k) by lia.
    pose proof (pow2_pos k Hk). pose proof (pow2_pos (s - k) ltac:(lia)) as HD.
    assert (B : (c - 1) * 2 ^ (s - k) < M <= c * 2 ^ (s - k)) by nia.
    enough (- M / 2 ^ (s - k) = - c) by lia.
    symmetry. apply (Z.div_unique_pos _ _ _ (c * 2 ^ (s - k) - M)); lia.
Qed.

Lemma iter_xO_pow2 (p d : positive) :
  Zpos (Pos.iter xO p d) = Zpos p * 2 ^ Zpos d.
Proof.
  rewrite <- Z.shiftl_mul_pow2 by lia. cbn [Z.shiftl].
  apply (Pos.iter_swap_gen _ _ Zpos xO (Z.mul 2)). reflexivity.
Qed.

Lemma shl_align_spec (p : positive) (e e' : Z) :
  e' <= e ->
  Zpos (fst (shl_align p e e')) = Zpos p * 2 ^ (e - e') /\
  snd (shl_align p e e') = e'.
Proof.
  intros H. unfold shl_align.
  destruct (e' - e) as [|d|d] eqn:E; try lia; cbn [fst snd].
  - replace (e - e') with 0 by lia. split; lia.
  - rewrite iter_xO_pow2. replace (e - e') with (Zpos d) by lia. auto.
Qed.

(** An integer below [2^53] converts without rounding. *)
Lemma of_int_exact (n : Z) :
  1 <= n < 2 ^ 53 ->
  exists m, of_int n = Ok (S754_finite false m (Zdigits2 n - 53)) /\
            Zpos m = n * 2 ^ (53 - Zdigits2 n) /\
            2 ^ 52 <= Zpos m < 2 ^ 53.
Proof.
  intros Hn.
  destruct (Zdigits2_bounds n ltac:(lia)) as [Hd Hb].
  set (d := Zdigits2 n) in *.
  assert (Hd53 : d <= 53).
  { destruct (Z_le_gt_dec d 53); [assumption|].
    pose proof (Z.pow_le_mono_r 2 53 (d - 1) ltac:(lia) ltac:(lia)). lia. }
  destruct n as [|p|p]; try lia.
  unfold of_int, binary_normalize, binary_round.
  change (Zpos (digits2_pos p)) with (Zdigits2 (Zpos p)). fold d.
  rewrite fexp_normal by lia. replace (d + 0 - 53) with (d - 53) by lia.
  destruct (shl_align_spec p 0 (d - 53) ltac:(lia)) as [Hm He].
  destruct (shl_align p 0 (d - 53)) as [mz ez]. cbn [fst snd] in Hm, He. subst ez.
  replace (0 - (d - 53)) with (53 - d) in Hm by lia.
  assert (Hmz : 2 ^ 52 <= Zpos mz < 2 ^ 53).
  { rewrite Hm.
    rewrite (pow2_sum (d - 1) (53 - d) 52), (pow2_sum d (53 - d) 53) by lia.
    pose proof (pow2_pos (53 - d) ltac:(lia)). nia. }
  destruct (binary_round_aux_53 (Zpos mz) (d - 53) loc_Exact) as
    (m' & e' & E & He' & Hv & Hc); try lia.
  rewrite E. cbn [round_nearest_even] in Hv.
  assert (e' = d - 53).
  { destruct (Z.eq_dec e' (d - 53)); [assumption|].
    replace (e' - (d - 53)) with 1 in Hv by lia. lia. }
  subst e'. rewrite Z.sub_diag in Hv.
  exists m'. split; [reflexivity|]. split; [lia|lia].
Qed.

(** What [SFsqrt_core_binary] computes, when it has bits to shift in. *)
Lemma SFsqrt_core_spec (m e : Z) :
  0 < m ->
  let e' := Z.min (fexp prec emax (Z.div2 (Zdigits2 m + e + 1))) (Z.div2 e) in
  0 <= e - 2 * e' ->
  exists l,
    SFsqrt_core_binary prec emax m e = (Z.sqrt (m * 2 ^ (e - 2 * e')), e', l) /\
    (Z.sqrt (m * 2 ^ (e - 2 * e')) * Z.sqrt (m * 2 ^ (e - 2 * e')) = m * 2 ^ (e - 2 * e')
     -> l = loc_Exact).
Proof.
  intros Hm e' Hs. unfold SFsqrt_core_binary. fold e'.
  set (s := e - 2 * e') in *.
  assert (Em : match s with
               | Z0 => m
               | Zpos _ => Z.shiftl m s
               | Zneg _ => 0
               end = m * 2 ^ s).
  { destruct s eqn:Es; try lia.
    - rewrite Z.shiftl_mul_pow2; lia. }
  rewrite Em.
  pose proof (pow2_pos s Hs) as Hp.
  pose proof (Z.sqrtrem_spec (m * 2 ^ s) ltac:(nia)) as Spec.
  pose proof (Z.sqrtrem_sqrt (m * 2 ^ s)) as Sq.
  destruct (Z.sqrtrem (m * 2 ^ s)) as [q r]. cbn [fst] in Sq. subst q.
  destruct Spec as [Eq Hr].
  eexists. split; [reflexivity|].
  intros Hex. replace (r =? 0) with true; [reflexivity|].
  symmetry. apply Z.eqb_eq. lia.
Qed.

Lemma square_lt_cancel (a b : Z) : 0 <= b -> a * a < b * b -> a < b.
Proof. intros. nia. Qed.

(** [math.ceil(math.sqrt(n))] is the exact ceiling of the square root for
    every [n] below [2^52]. *)
Lemma ceil_sqrt_float (n : Z) :
  1 <= n < 2 ^ 52 ->
  exists fn root,
    of_int n = Ok fn /\ sqrt fn = Ok root /\ ceil root = Ok (ceil_sqrt n).
Proof.
  intros Hn.
  destruct (of_int_exact n) as (m & E & Hm & Hmr); [cbn in *; lia|].
  destruct (Zdigits2_bounds n) as [Hd Hb]; [lia|].
  set (d := Zdigits2 n) in *.
  assert (Hd52 : d <= 52).
  { destruct (Z_le_gt_dec d 52); [assumption|].
    pose proof (Z.pow_le_mono_r 2 52 (d - 1) ltac:(lia) ltac:(lia)). lia. }
  exists (S754_finite false m (d - 53)).
  pose proof (SFsqrt_core_spec (Zpos m) (d - 53) ltac:(lia)) as Core.
  rewrite (Zdigits2_unique (Zpos m) 53) in Core by lia.
  cbv zeta in Core.
  set (u := Z.div2 (53 + (d - 53) + 1)) in Core.
  assert (Hu : 2 * u <= d + 1 <= 2 * u + 1).
  { unfold u. rewrite Z.div2_div. Z.div_mod_to_equations. lia. }
  rewrite fexp_normal in Core by lia.
  assert (Emin : Z.min (u - 53) (Z.div2 (d - 53)) = u - 53).
  { rewrite Z.div2_div. Z.div_mod_to_equations. lia. }
  rewrite Emin in Core.
  set (t := 53 - u).
  assert (EX : Zpos m * 2 ^ (d - 53 - 2 * (u - 53)) = n * (2 ^ t * 2 ^ t)).
  { rewrite Hm, <- Z.mul_assoc. f_equal.
    rewrite <- !pow2_split by lia. f_equal. lia. }
  rewrite EX in Core.
  set (P := 2 ^ t) in *. set (X := n * (P * P)) in *.
  destruct Core as (l & Core & Hex); [lia|].
  assert (HP : 0 < P) by (apply pow2_pos; lia).
  pose proof (Z.sqrt_spec X ltac:(nia)) as Hq. cbv zeta in Hq.
  set (q := Z.sqrt X) in *.
  assert (Hq0 : 0 <= q) by apply Z.sqrt_nonneg.
  assert (HX : 2 ^ 104 <= X < 2 ^ 106).
  { unfold X, P. rewrite <- pow2_split by lia.
    pose proof (pow2_pos (t + t) ltac:(lia)) as Htt.
    pose proof (Z.pow_le_mono_r 2 104 ((d - 1) + (t + t)) ltac:(lia) ltac:(lia)) as L.
    pose proof (Z.pow_le_mono_r 2 (d + (t + t)) 106 ltac:(lia) ltac:(lia)) as U.
    rewrite pow2_split in L, U by lia. nia. }
  assert (Hqr : 2 ^ 52 <= q < 2 ^ 53).
  { cbn in HX |- *. nia. }
  destruct (binary_round_aux_53 q (u - 53) l) as (m' & e' & Er & He' & Hv & _);
    [lia|lia|].
  exists (S754_finite false m' e').
  split; [exact E|]. split.
  { unfold sqrt, SFsqrt. rewrite Core, Er. reflexivity. }
  cbn [ceil]. f_equal.
  replace e' with ((e' - (u - 53)) - t) by (unfold t; lia).
  pose proof (round_nearest_even_range q l) as R.
  apply ceil_scaled_unique; [lia|lia|]. rewrite Hv. fold P.
  pose proof (Z.sqrt_spec n ltac:(lia)) as Hk. cbv zeta in Hk.
  unfold ceil_sqrt. set (k := Z.sqrt n) in *.
  assert (Hk0 : 0 <= k) by apply Z.sqrt_nonneg.
  destruct (k * k =? n) eqn:Esq.
  - apply Z.eqb_eq in Esq.
    assert (Eq : q = k * P).
    { unfold q. apply Z.sqrt_unique. unfold X. nia. }
    rewrite Hex by (unfold X; nia).
    cbn [round_nearest_even]. nia.
  - apply Z.eqb_neq in Esq.
    assert (Hup : q < (k + 1) * P).
    { apply square_lt_cancel; [nia|]. unfold X in Hq. nia. }
    assert (HkA : k < 2 ^ u).
    { apply square_lt_cancel; [pose proof (pow2_pos u); lia|].
      rewrite <- pow2_split by lia.
      pose proof (Z.pow_le_mono_r 2 d (u + u) ltac:(lia) ltac:(lia)). lia. }
    assert (HPA : 2 * 2 ^ u <= P).
    { unfold P. change (2 * 2 ^ u) with (2 ^ 1 * 2 ^ u).
      rewrite <- pow2_split by lia.
      apply Z.pow_le_mono_r; unfold t; lia. }
    assert (Hlow : k * P + 1 <= q).
    { destruct (Z_le_gt_dec (k * P + 1) q); [assumption|exfalso].
      assert ((q + 1) * (q + 1) <= (k * P + 1) * (k * P + 1)) by nia.
      assert ((k * P + 1) * (k * P + 1) <= X); [unfold X; nia|lia]. }
    replace (k + 1 - 1) with k by lia. nia.
Qed.

(** What [SFdiv_core_binary] computes. *)
Lemma SFdiv_core_spec (m1 e1 m2 e2 : Z) :
  0 < m1 -> 0 < m2 ->
  let e' := Z.min (fexp prec emax (Zdigits2 m1 + e1 - (Zdigits2 m2 + e2))) (e1 - e2) in
  exists l,
    SFdiv_core_binary prec emax m1 e1 m2 e2
    = (m1 * 2 ^ (e1 - e2 - e') / m2, e', l) /\
    ((m1 * 2 ^ (e1 - e2 - e')) mod m2 = 0 -> l = loc_Exact).
Proof.
  intros H1 H2 e'. unfold SFdiv_core_binary. fold e'.
  set (s := e1 - e2 - e') in *.
  assert (Hs : 0 <= s) by (unfold s, e'; lia).
  assert (Em : match s with
               | Z0 => m1
               | Zpos _ => Z.shiftl m1 s
               | Zneg _ => 0
               end = m1 * 2 ^ s).
  { destruct s eqn:Es; try lia.
    - rewrite Z.shiftl_mul_pow2; lia. }
  rewrite Em. unfold Z.div, Z.modulo.
  destruct (Z.div_eucl (m1 * 2 ^ s) m2) as [q r].
  eexists. split; [reflexivity|].
  intros ->. unfold new_location, new_location_even, new_location_odd.
  destruct (Z.even m2); reflexivity.
Qed.

Lemma ceil_div_exact (n c : Z) : 0 < c -> n mod c = 0 -> ceil_div n c = n / c.
Proof.
  intros Hc Hr. unfold ceil_div.
  pose proof (Z.div_mod n c ltac:(lia)) as E.
  enough (- n / c = - (n / c)) by lia.
  symmetry. apply (Z.div_unique_pos _ _ _ 0); lia.
Qed.

Lemma ceil_div_inexact (n c : Z) : 0 < c -> n mod c <> 0 -> ceil_div n c = n / c + 1.
Proof.
  intros Hc Hr. unfold ceil_div.
  pose proof (Z.div_mod n c ltac:(lia)) as E.
  pose proof (Z.mod_pos_bound n c Hc) as B.
  enough (- n / c = - (n / c + 1)) by lia.
  symmetry. apply (Z.div_unique_pos _ _ _ (c - n mod c)); lia.
Qed.

(** [math.ceil(n / c)] is the exact ceiling of the quotient for
    [1 <= c <= n < 2^52]. *)
Lemma ceil_truediv_float (n c : Z) :
  1 <= c <= n -> n < 2 ^ 52 ->
  exists quot, truediv n c = Ok quot /\ ceil quot = Ok (ceil_div n c).
Proof.
  intros Hc Hn.
  destruct (Zdigits2_bounds n) as [Hd1 Hb1]; [lia|].
  destruct (Zdigits2_bounds c) as [Hd2 Hb2]; [lia|].
  pose proof (SFdiv_core_spec n 0 c 0 ltac:(lia) ltac:(lia)) as Core.
  cbv zeta in Core.
  set (d1 := Zdigits2 n) in *. set (d2 := Zdigits2 c) in *.
  assert (Hd52 : d1 <= 52).
  { destruct (Z_le_gt_dec d1 52); [assumption|].
    pose proof (Z.pow_le_mono_r 2 52 (d1 - 1) ltac:(lia) ltac:(lia)). lia. }
  assert (Hd21 : d2 <= d1).
  { destruct (Z_le_gt_dec d2 d1); [assumption|].
    pose proof (Z.pow_le_mono_r 2 d1 (d2 - 1) ltac:(lia) ltac:(lia)). lia. }
  rewrite fexp_normal in Core by lia.
  set (s := 53 + d2 - d1).
  replace (Z.min (d1 + 0 - (d2 + 0) - 53) (0 - 0)) with (- s) in Core by (unfold s; lia).
  replace (0 - 0 - - s) with s in Core by lia.
  destruct Core as (l & Core & Hex).
  set (S := 2 ^ s) in *.
  assert (HS : 0 < S) by (apply pow2_pos; unfold s; lia).
  set (q := n * S / c) in *.
  assert (HS2 : 2 * c < S).
  { unfold S. pose proof (Z.pow_le_mono_r 2 (d2 + 1) s ltac:(lia) ltac:(unfold s; lia)) as L.
    rewrite pow2_split in L by lia. change (2 ^ 1) with 2 in L. lia. }
  assert (Hq : 2 ^ 52 <= q < 2 ^ 54).
  { unfold q. split.
    - apply Z.div_le_lower_bound; [lia|].
      assert (E52 : 2 ^ 52 * 2 ^ d2 = 2 ^ (d1 - 1) * S).
      { unfold S. rewrite <- !pow2_split by (unfold s; lia). f_equal. unfold s. lia. }
      pose proof (pow2_pos (d1 - 1) ltac:(lia)) as HA.
      set (A := 2 ^ (d1 - 1)) in *. set (B := 2 ^ d2) in *.
      assert (A * S <= n * S) by nia.
      assert (c * 2 ^ 52 <= 2 ^ 52 * B) by nia.
      lia.
    - apply Z.div_lt_upper_bound; [lia|].
      assert (E54 : 2 ^ 54 * 2 ^ (d2 - 1) = 2 ^ d1 * S).
      { unfold S. rewrite <- !pow2_split by (unfold s; lia). f_equal. unfold s. lia. }
      pose proof (pow2_pos (d2 - 1) ltac:(lia)) as HB.
      set (A := 2 ^ d1) in *. set (B := 2 ^ (d2 - 1)) in *.
      assert (n * S < A * S) by nia.
      assert (2 ^ 54 * B <= c * 2 ^ 54) by nia.
      lia. }
  pose proof (Z.div_mod (n * S) c ltac:(lia)) as Edm. fold q in Edm.
  pose proof (Z.mod_pos_bound (n * S) c ltac:(lia)) as Brm.
  pose proof (Z.div_mod n c ltac:(lia)) as Enc.
  pose proof (Z.mod_pos_bound n c ltac:(lia)) as Bnc.
  set (K := n / c) in *. set (rho := n mod c) in *.
  assert (Hcd : ceil_div n c = if rho =? 0 then K else K + 1).
  { destruct (rho =? 0) eqn:Er.
    - apply Z.eqb_eq in Er. apply ceil_div_exact; [lia|exact Er].
    - apply Z.eqb_neq in Er. apply ceil_div_inexact; [lia|exact Er]. }
  assert (Hzero : rho = 0 -> q = K * S /\ (n * S) mod c = 0).
  { intros Hr. assert (Eq : K * S = q).
    { unfold q. apply (Z.div_unique_pos _ _ _ 0); nia. }
    split; [lia|]. nia. }
  assert (Hpos : rho <> 0 -> K * S + 2 <= q < (K + 1) * S).
  { intros Hr. split.
    - unfold q. apply Z.div_le_lower_bound; [lia|]. nia.
    - unfold q. apply Z.div_lt_upper_bound; [lia|]. nia. }
  destruct n as [|pn|pn]; try lia. destruct c as [|pc|pc]; try lia.
  unfold truediv. cbn [Z.eqb exact SFdiv xorb]. rewrite Core.
  destruct (Z_lt_ge_dec q (2 ^ 53)) as [Hlt|Hge].
  - destruct (binary_round_aux_53 q (- s) l) as (m' & e' & Er & He' & Hv & _);
      [lia|unfold s; lia|].
    rewrite Er. eexists. split; [reflexivity|].
    cbn [ceil]. f_equal. rewrite Hcd.
    replace e' with ((e' - - s) - s) by lia.
    pose proof (round_nearest_even_range q l) as R.
    apply ceil_scaled_unique; [lia|unfold s; lia|]. rewrite Hv. fold S.
    destruct (rho =? 0) eqn:Erho.
    + apply Z.eqb_eq in Erho. destruct (Hzero Erho) as [Eq Em].
      rewrite (Hex Em). cbn [round_nearest_even]. nia.
    + apply Z.eqb_neq in Erho. specialize (Hpos Erho).
      replace (K + 1 - 1) with K by lia. nia.
  - destruct (binary_round_aux_54 q (- s) l) as (m' & e' & Er & He' & Hv & Hexact);
      [lia|unfold s; lia|].
    rewrite Er. eexists. split; [reflexivity|].
    cbn [ceil]. f_equal. rewrite Hcd.
    replace e' with ((e' - (- s + 1)) - (s - 1)) by lia.
    apply ceil_scaled_unique; [lia|unfold s; lia|].
    set (T := 2 ^ (s - 1)).
    assert (ES : S = 2 * T).
    { unfold S, T. rewrite (pow2_sum 1 (s - 1) s) by (unfold s; lia). reflexivity. }
    assert (HT : 0 < T) by lia.
    destruct (rho =? 0) eqn:Erho.
    + apply Z.eqb_eq in Erho. destruct (Hzero Erho) as [Eq Em].
      assert (Hev : Z.even q = true).
      { rewrite Eq, ES. replace (K * (2 * T)) with (2 * (K * T)) by lia.
        rewrite Z.even_mul. reflexivity. }
      rewrite (Hexact (Hex Em) Hev).
      replace (q / 2) with (K * T); [nia|].
      apply (Z.div_unique_pos _ _ _ 0); lia.
    + apply Z.eqb_neq in Erho. specialize (Hpos Erho).
      replace (K + 1 - 1) with K by lia.
      assert (K * T + 1 <= q / 2) by (apply Z.div_le_lower_bound; lia).
      assert (q / 2 < (K + 1) * T) by (apply Z.div_lt_upper_bound; lia).
      lia.
Qed.

(** The grid of [n] cells, [1 <= n < 2^52], as the floats compute it. *)
Lemma ceil_sqrt_bounds (n : Z) :
  1 <= n -> 1 <= ceil_sqrt n <= n /\
            (ceil_sqrt n - 1) * (ceil_sqrt n - 1) < n <= ceil_sqrt n * ceil_sqrt n.
Proof.
  intros Hn. unfold ceil_sqrt.
  pose proof (Z.sqrt_spec n ltac:(lia)) as Hk. cbv zeta in Hk.
  pose proof (Z.sqrt_nonneg n).
  set (k := Z.sqrt n) in *.
  destruct (k * k =? n) eqn:E.
  - apply Z.eqb_eq in E. nia.
  - apply Z.eqb_neq in E. nia.
Qed.

Lemma grid_shape_exact (n : Z) :
  1 <= n < 2 ^ 52 ->
  grid_shape n = Ok (ceil_sqrt n, ceil_div n (ceil_sqrt n)).
Proof.
  intros Hn. unfold grid_shape.
  destruct (ceil_sqrt_float n Hn) as (fn & root & E1 & E2 & E3).
  rewrite E1. cbn [bind]. rewrite E2. cbn [bind]. rewrite E3. cbn [bind].
  destruct (ceil_sqrt_bounds n ltac:(lia)) as [Hc _].
  destruct (ceil_truediv_float n (ceil_sqrt n)) as (quot & E4 & E5); [lia|lia|].
  rewrite E4. cbn [bind]. rewrite E5. reflexivity.
Qed.
End FloatFacts.


(** ** pixelate_image *)

(** Floor division of a positive integer by a negative one is negative. *)
Lemma floordiv_negative (a b : Z) : 1 <= a -> b <= -1 -> a / b < 0.
Proof.
  intros Ha Hb.
  pose proof (Z.div_mod a b ltac:(lia)) as E.
  pose proof (Z.mod_neg_bound a b ltac:(lia)) as B.
  nia.
Qed.

Section PixelateFacts.
Context {core : ImagingCore}.

Lemma resize_ok (im : Image) (w h : Z) (f : Resampling) :
  1 <= w -> 1 <= h ->
  exists r, resize im (w, h) f = Ok r /\
            mode r = mode im /\ width r = w /\ height r = h.
Proof.
  intros Hw Hh. unfold resize.
  destruct ((w =? width im) && (h =? height im)) eqn:E.
  - apply andb_true_iff in E as [Ew Eh].
    apply Z.eqb_eq in Ew, Eh. exists (copy im). unfold copy. auto.
  - replace ((w <? 1) || (h <? 1)) with false
      by (symmetry; apply orb_false_iff; split; apply Z.ltb_ge; lia).
    exists (resample f im w h).
    rewrite resample_mode, resample_width, resample_height. auto.
Qed.

Lemma resize_same_size (im : Image) (f : Resampling) :
  resize im (size im) f = Ok im.
Proof.
  unfold resize, size, copy. now rewrite !Z.eqb_refl.
Qed.

(** The two resizes succeed for every non-zero [pixel_size]. *)
Lemma pixelate_resize_ok (image : Image) (pixel_size : Z) :
  1 <= width image -> 1 <= height image -> pixel_size <> 0 ->
  exists st, pixelate_resize image pixel_size = Ok st /\
    new_width st = Z.max 1 (width image / pixel_size) /\
    new_height st = Z.max 1 (height image / pixel_size) /\
    mode (small_image st) = mode image /\
    width (small_image st) = new_width st /\
    height (small_image st) = new_height st /\
    mode (pixelated_image st) = mode image /\
    width (pixelated_image st) = width image /\
    height (pixelated_image st) = height image.
Proof.
  intros Hw Hh Hp. unfold pixelate_resize, floordiv.
  apply Z.eqb_neq in Hp. rewrite Hp. cbn [bind].
  destruct (resize_ok image (Z.max 1 (width image / pixel_size))
              (Z.max 1 (height image / pixel_size)) BILINEAR)
    as (small & Es & Hm & Hsw & Hsh); try lia.
  rewrite Es. cbn [bind]. unfold size.
  destruct (resize_ok small (width image) (height image) NEAREST)
    as (big & Eb & Hbm & Hbw & Hbh); try lia.
  rewrite Eb. cbn [bind].
  eexists. split; [reflexivity|]. cbn.
  repeat split; congruence.
Qed.

Lemma pixelate_image_zero (image : Image) (auto_adjust : bool) :
  raises (pixelate_image image 0 auto_adjust) is_ZeroDivisionError.
Proof. eexists. split; reflexivity. Qed.

Lemma autocontrast_ok (im : Image) :
  autocontrast_supported (mode im) = true ->
  exists r, autocontrast im = Ok r /\
            mode r = mode im /\ width r = width im /\ height r = height im.
Proof.
  unfold autocontrast, ImageOps_lut.
  destruct (mode im) eqn:E; cbn; try discriminate; intros _;
    eexists; (split; [reflexivity|]); cbn; auto.
Qed.

Lemma autocontrast_unsupported (im : Image) :
  autocontrast_supported (mode im) = false ->
  exists e, autocontrast im = Err e /\ is_ZeroDivisionError e = false.
Proof.
  unfold autocontrast, ImageOps_lut.
  destruct (mode im) eqn:E; cbn; try discriminate; intros _;
    eexists; split; reflexivity.
Qed.

Lemma autocontrast_alpha (im : Image) :
  has_alpha (mode im) = true -> raises (autocontrast im) is_OSError.
Proof.
  unfold autocontrast, ImageOps_lut.
  destruct (mode im) eqn:E; cbn; try discriminate; intros _;
    eexists; split; reflexivity.
Qed.

End PixelateFacts.

Section PixelateClaims.
Context {core : ImagingCore}.

Ltac with_resize image pixel_size st :=
  let E := fresh "E" in
  destruct (pixelate_resize_ok image pixel_size)
    as (st & E & ? & ? & ? & ? & ? & ? & ? & ?); [lia | lia | lia |];
  unfold pixelate_image; rewrite ?E; cbn [bind].

(** C4. For an image of width and height at least 1 and a pixel size of
    at least 1, every image [pixelate_image] returns has the width and the
    height of its input; it returns one whenever [auto_adjust] is off or
    the mode is one [ImageOps.autocontrast] accepts. *)
Theorem pixelate_image_keeps_size (image : Image) (pixel_size : Z) (auto_adjust : bool) :
  1 <= width image -> 1 <= height image -> 1 <= pixel_size ->
  (forall r, pixelate_image image pixel_size auto_adjust = Ok r ->
             width r = width image /\ height r = height image) /\
  (auto_adjust = false \/ autocontrast_supported (mode image) = true ->
   exists r, pixelate_image image pixel_size auto_adjust = Ok r).
Proof.
  intros Hw Hh Hp. with_resize image pixel_size st.
  destruct auto_adjust.
  - destruct (autocontrast_supported (mode image)) eqn:S.
    + destruct (autocontrast_ok (pixelated_image st)) as (r & Er & _ & Hrw & Hrh);
        [congruence|].
      rewrite Er. split.
      * intros r' [= <-]. split; congruence.
      * eauto.
    + destruct (autocontrast_unsupported (pixelated_image st)) as (e & Ee & _);
        [congruence|].
      rewrite Ee. split; [discriminate|].
      intros [|]; discriminate.
  - split.
    + intros r [= <-]. auto.
    + eauto.
Qed.

(** C6. The image between the two resizes has width
    [max(1, W // pixel_size)] and height [max(1, H // pixel_size)]; for a
    100x100 image and pixel size 16 that is 6x6. *)
Theorem pixelate_small_image_size (image : Image) (pixel_size : Z) :
  1 <= width image -> 1 <= height image -> 1 <= pixel_size ->
  exists st, pixelate_resize image pixel_size = Ok st /\
    width (small_image st) = Z.max 1 (width image / pixel_size) /\
    height (small_image st) = Z.max 1 (height image / pixel_size) /\
    (width image = 100 -> height image = 100 -> pixel_size = 16 ->
     size (small_image st) = (6, 6)).
Proof.
  intros Hw Hh Hp.
  destruct (pixelate_resize_ok image pixel_size)
    as (st & E & Hnw & Hnh & _ & Hsw & Hsh & _); try lia.
  exists st. split; [exact E|].
  split; [congruence|]. split; [congruence|].
  intros W H P. unfold size. rewrite Hsw, Hsh, Hnw, Hnh, W, H, P. reflexivity.
Qed.

(** C7. At pixel size 1 both resizes keep the size, so they are copies:
    without [auto_adjust] the input comes back, pixel for pixel, and with
    it the result is the auto-contrast of the input. *)
Theorem pixelate_image_pixel_size_1 (image : Image) :
  1 <= width image -> 1 <= height image ->
  pixelate_image image 1 false = Ok image /\
  pixelate_image image 1 true = autocontrast image.
Proof.
  intros Hw Hh.
  assert (E : pixelate_resize image 1
              = Ok {| new_width := width image; new_height := height image;
                      small_image := image; pixelated_image := image |}).
  { unfold pixelate_resize, floordiv. cbn [Z.eqb bind].
    rewrite !Z.div_1_r, !Z.max_r by lia.
    change (width image, height image) with (size image).
    rewrite resize_same_size. cbn [bind].
    rewrite resize_same_size. reflexivity. }
  unfold pixelate_image. rewrite E. cbn. auto.
Qed.

(** C1, as the code has it. No pixel size is rejected as a configuration
    error: below 1, only pixel size 0 makes [pixelate_image] fail, with
    the [ZeroDivisionError] of the floor division; for a negative pixel
    size both resizes are made and the function goes on as for a
    positive one. *)
Theorem pixelate_image_pixel_size_below_1
    (image : Image) (pixel_size : Z) (auto_adjust : bool) :
  1 <= width image -> 1 <= height image -> pixel_size < 1 ->
  (pixel_size = 0 ->
   raises (pixelate_image image pixel_size auto_adjust) is_ZeroDivisionError) /\
  (pixel_size <> 0 ->
   exists st, pixelate_resize image pixel_size = Ok st /\
     pixelate_image image pixel_size auto_adjust
     = if auto_adjust then autocontrast (pixelated_image st)
       else Ok (pixelated_image st)).
Proof.
  intros Hw Hh Hp. split.
  - intros ->. apply pixelate_image_zero.
  - intros Hz. with_resize image pixel_size st. eauto.
Qed.

(** How far the failure of the auto-contrast step reaches.  Line 34 hands
    the whole image to [ImageOps.autocontrast], which accepts only modes L
    and RGB: for every image whose mode has an alpha channel
    [pixelate_image] with [auto_adjust] raises [OSError], whatever the
    pixel size, while without [auto_adjust] the same image is processed. *)
Lemma pixelate_image_alpha_mode (image : Image) (pixel_size : Z) :
  has_alpha (mode image) = true ->
  1 <= width image -> 1 <= height image -> pixel_size <> 0 ->
  raises (pixelate_image image pixel_size true) is_OSError /\
  exists st, pixelate_resize image pixel_size = Ok st /\
             pixelate_image image pixel_size false = Ok (pixelated_image st).
Proof.
  intros Ha Hw Hh Hp. with_resize image pixel_size st.
  split; [|eauto].
  apply autocontrast_alpha. congruence.
Qed.

(** The arithmetic of negative pixel sizes.  The floor division gives a
    value below 1, which [max(1, .)] turns into 1: the image is downsampled
    to 1x1 and upsampled to the size of the input.  That image is returned
    when [auto_adjust] is off, and an image of the same size when it is on
    and the mode is L or RGB.  The floor division fails at pixel size 0
    only. *)
Lemma pixelate_image_negative_pixel_size (image : Image) (pixel_size : Z) :
  1 <= width image -> 1 <= height image -> pixel_size <= -1 ->
  (exists st, pixelate_resize image pixel_size = Ok st /\
     size (small_image st) = (1, 1) /\
     size (pixelated_image st) = size image /\
     pixelate_image image pixel_size false = Ok (pixelated_image st) /\
     (autocontrast_supported (mode image) = true ->
      exists r, pixelate_image image pixel_size true = Ok r /\
                size r = size image)) /\
  (forall auto_adjust,
     raises (pixelate_image image 0 auto_adjust) is_ZeroDivisionError).
Proof.
  intros Hw Hh Hp. split; [|apply pixelate_image_zero].
  pose proof (floordiv_negative (width image) pixel_size Hw Hp) as Hqw.
  pose proof (floordiv_negative (height image) pixel_size Hh Hp) as Hqh.
  with_resize image pixel_size st.
  exists st. split; [reflexivity|]. unfold size.
  split; [f_equal; lia|]. split; [f_equal; lia|]. split; [reflexivity|].
  intros S.
  destruct (autocontrast_ok (pixelated_image st)) as (r & Er & _ & Hrw & Hrh);
    [congruence|].
  exists r. split; [exact Er|]. f_equal; congruence.
Qed.

End PixelateClaims.

(** ** The pixelation claims on the reference core *)

Lemma pixelate_image_keeps_size_witness :
  (1 <= width Reference.ramp /\ 1 <= height Reference.ramp /\ 1 <= 2) /\
  (forall r, pixelate_image (core := Reference.core) Reference.ramp 2 true = Ok r ->
             width r = width Reference.ramp /\ height r = height Reference.ramp) /\
  (true = false \/ autocontrast_supported (mode Reference.ramp) = true ->
   exists r, pixelate_image (core := Reference.core) Reference.ramp 2 true = Ok r).
Proof.
  split; [simpl; lia|].
  apply (pixelate_image_keeps_size (core := Reference.core) Reference.ramp 2 true);
    simpl; lia.
Defined.

Lemma pixelate_small_image_size_witness :
  (1 <= width Reference.grey100 /\ 1 <= height Reference.grey100 /\ 1 <= 16) /\
  exists st, pixelate_resize (core := Reference.core) Reference.grey100 16 = Ok st /\
    width (small_image st) = Z.max 1 (width Reference.grey100 / 16) /\
    height (small_image st) = Z.max 1 (height Reference.grey100 / 16) /\
    (width Reference.grey100 = 100 -> height Reference.grey100 = 100 -> 16 = 16 ->
     size (small_image st) = (6, 6)).
Proof.
  split; [simpl; lia|].
  apply (pixelate_small_image_size (core := Reference.core) Reference.grey100 16);
    simpl; lia.
Defined.

Lemma pixelate_image_pixel_size_1_witness :
  (1 <= width Reference.ramp /\ 1 <= height Reference.ramp) /\
  pixelate_image (core := Reference.core) Reference.ramp 1 false = Ok Reference.ramp /\
  pixelate_image (core := Reference.core) Reference.ramp 1 true
  = autocontrast (core := Reference.core) Reference.ramp.
Proof.
  split; [simpl; lia|].
  apply (pixelate_image_pixel_size_1 (core := Reference.core) Reference.ramp);
    simpl; lia.
Defined.

(** C1 fails on the code: a 4x4 image and pixel size -2 give an image, not
    an error. *)
Lemma pixelate_image_accepts_negative_pixel_size :
  1 <= width Reference.badge /\ 1 <= height Reference.badge /\ -2 < 1 /\
  ~ (exists e, pixelate_image (core := Reference.core) Reference.badge (-2) false = Err e).
Proof.
  split; [simpl; lia|]. split; [simpl; lia|]. split; [lia|].
  intros [e E].
  assert (H : is_ok (pixelate_image (core := Reference.core) Reference.badge (-2) false)
              = true) by (vm_compute; reflexivity).
  rewrite E in H. discriminate.
Qed.

Lemma pixelate_image_pixel_size_below_1_witness :
  (1 <= width Reference.badge /\ 1 <= height Reference.badge /\ -2 < 1) /\
  (-2 = 0 ->
   raises (pixelate_image (core := Reference.core) Reference.badge (-2) false)
          is_ZeroDivisionError) /\
  (-2 <> 0 ->
   exists st, pixelate_resize (core := Reference.core) Reference.badge (-2) = Ok st /\
     pixelate_image (core := Reference.core) Reference.badge (-2) false
     = if false then autocontrast (core := Reference.core) (pixelated_image st)
       else Ok (pixelated_image st)).
Proof.
  split; [simpl; lia|].
  apply (pixelate_image_pixel_size_below_1 (core := Reference.core)
           Reference.badge (-2) false); simpl; lia.
Defined.

(** C5. The code at the input where it breaks the claim: for the 4x4 RGBA
    image [badge], pixel size 2 and [auto_adjust], the auto-contrast step
    raises [OSError] instead of stretching the colour channels, so
    [pixelate_image] returns no image, and none with the alpha channel
    kept; without [auto_adjust] the same image is processed. *)
Lemma pixelate_image_auto_adjust_rgba_fails :
  has_alpha (mode Reference.badge) = true /\
  pixelate_image (core := Reference.core) Reference.badge 2 true
  = Err (OSError "not supported for mode RGBA") /\
  is_ok (pixelate_image (core := Reference.core) Reference.badge 2 false) = true /\
  ~ (exists r, pixelate_image (core := Reference.core) Reference.badge 2 true = Ok r /\
       forall st, pixelate_resize (core := Reference.core) Reference.badge 2 = Ok st ->
       forall x y, alpha r x y = alpha (pixelated_image st) x y).
Proof.
  assert (H : pixelate_image (core := Reference.core) Reference.badge 2 true
              = Err (OSError "not supported for mode RGBA"))
    by (vm_compute; reflexivity).
  split; [reflexivity|]. split; [exact H|]. split; [vm_compute; reflexivity|].
  intros (r & E & _). rewrite E in H. discriminate.
Qed.

Lemma pixelate_image_alpha_mode_witness :
  (has_alpha (mode Reference.badge) = true /\
   1 <= width Reference.badge /\ 1 <= height Reference.badge /\ 2 <> 0) /\
  raises (pixelate_image (core := Reference.core) Reference.badge 2 true) is_OSError /\
  exists st, pixelate_resize (core := Reference.core) Reference.badge 2 = Ok st /\
             pixelate_image (core := Reference.core) Reference.badge 2 false
             = Ok (pixelated_image st).
Proof.
  split; [simpl; repeat split; lia|].
  apply (pixelate_image_alpha_mode (core := Reference.core) Reference.badge 2);
    simpl; (reflexivity || lia).
Defined.

(** C10. The code at the input where it breaks the claim: for the 4x4
    RGBA image [badge], pixel size -2 and [auto_adjust], both resizes are
    made as the claim says (to 1x1 and back to 4x4), and the auto-contrast
    step then raises [OSError]: [pixelate_image] fails, though the pixel
    size is not 0.  Without [auto_adjust] the 4x4 image is returned. *)
Lemma pixelate_image_negative_pixel_size_rgba_fails :
  (1 <= width Reference.badge /\ 1 <= height Reference.badge /\ -2 <= -1) /\
  (exists st, pixelate_resize (core := Reference.core) Reference.badge (-2) = Ok st /\
     size (small_image st) = (1, 1) /\ size (pixelated_image st) = (4, 4) /\
     pixelate_image (core := Reference.core) Reference.badge (-2) false
     = Ok (pixelated_image st)) /\
  pixelate_image (core := Reference.core) Reference.badge (-2) true
  = Err (OSError "not supported for mode RGBA") /\
  raises (pixelate_image (core := Reference.core) Reference.badge (-2) true) is_OSError.
Proof.
  split; [simpl; lia|].
  split.
  - destruct (pixelate_image_negative_pixel_size (core := Reference.core)
                Reference.badge (-2)) as [(st & E & Hs & Hp & Hf & _) _];
      [simpl; lia | simpl; lia | lia |].
    exists st. split; [exact E|]. split; [exact Hs|]. split; [exact Hp|exact Hf].
  - split; [vm_compute; reflexivity|].
    exists (OSError "not supported for mode RGBA").
    split; vm_compute; reflexivity.
Qed.

Lemma pixelate_image_negative_pixel_size_witness :
  (1 <= width Reference.ramp /\ 1 <= height Reference.ramp /\ -2 <= -1) /\
  (exists st, pixelate_resize (core := Reference.core) Reference.ramp (-2) = Ok st /\
     size (small_image st) = (1, 1) /\
     size (pixelated_image st) = size Reference.ramp /\
     pixelate_image (core := Reference.core) Reference.ramp (-2) false
     = Ok (pixelated_image st) /\
     (autocontrast_supported (mode Reference.ramp) = true ->
      exists r, pixelate_image (core := Reference.core) Reference.ramp (-2) true = Ok r /\
                size r = size Reference.ramp)) /\
  (forall auto_adjust,
     raises (pixelate_image (core := Reference.core) Reference.ramp 0 auto_adjust)
            is_ZeroDivisionError).
Proof.
  split; [simpl; lia|].
  apply (pixelate_image_negative_pixel_size (core := Reference.core) Reference.ramp (-2));
    simpl; lia.
Defined.

(** ** generate_spritemap *)

Lemma fold_max_spec (xs : list Z) (x : Z) :
  x <= fold_left Z.max xs x /\
  Forall (fun y => y <= fold_left Z.max xs x) xs /\
  In (fold_left Z.max xs x) (x :: xs).
Proof.
  revert x. induction xs as [|y ys IH]; intros x; cbn [fold_left].
  - repeat split; [lia | constructor | now left].
  - destruct (IH (Z.max x y)) as (Hge & Hall & Hin).
    split; [lia|]. split.
    + constructor; [lia|exact Hall].
    + destruct Hin as [E|Hin].
      * rewrite <- E. destruct (Z.max_spec x y) as [[_ ->]|[_ ->]];
          [right; now left | now left].
      * right. now right.
Qed.

(** [max] returns an element of the list that no element exceeds. *)
Lemma py_max_spec (xs : list Z) :
  xs <> [] ->
  exists m, py_max xs = Ok m /\ In m xs /\ Forall (fun y => y <= m) xs.
Proof.
  destruct xs as [|x rest]; [congruence|]. intros _.
  destruct (fold_max_spec rest x) as (Hge & Hall & Hin).
  exists (fold_left Z.max rest x). split; [reflexivity|].
  split; [exact Hin|]. constructor; assumption.
Qed.

Lemma ceil_div_bounds (n c : Z) :
  0 < c -> c * (ceil_div n c - 1) < n <= c * ceil_div n c.
Proof.
  intros Hc.
  pose proof (Z.div_mod n c ltac:(lia)) as E.
  pose proof (Z.mod_pos_bound n c Hc) as B.
  destruct (Z.eq_dec (n mod c) 0) as [Hz|Hnz].
  - rewrite FloatFacts.ceil_div_exact by assumption. nia.
  - rewrite FloatFacts.ceil_div_inexact by assumption. nia.
Qed.

Lemma valid_image_spec (im : Image) :
  valid_image im = true <-> 0 <= width im /\ 0 <= height im.
Proof.
  unfold valid_image. rewrite andb_true_iff, !Z.leb_le. reflexivity.
Qed.

Section SpritemapFacts.
Context {core : ImagingCore}.

(** The layout of a list of [1 <= N < 2^52] images. *)
Lemma spritemap_layout_ok (images : list Image) :
  1 <= Z.of_nat (List.length images) < 2 ^ 52 ->
  exists lay, spritemap_layout images = Ok lay /\
    In (cell_width lay) (map width images) /\
    Forall (fun im => width im <= cell_width lay) images /\
    In (cell_height lay) (map height images) /\
    Forall (fun im => height im <= cell_height lay) images /\
    count lay = Z.of_nat (List.length images) /\
    cols lay = ceil_sqrt (count lay) /\
    rows lay = ceil_div (count lay) (cols lay) /\
    spritemap_width lay = cols lay * cell_width lay /\
    spritemap_height lay = rows lay * cell_height lay.
Proof.
  intros HN. unfold spritemap_layout.
  assert (Hne : images <> []) by (destruct images; [cbn in HN; lia|discriminate]).
  destruct (py_max_spec (map width images)) as (cw & Ew & Hinw & Hallw).
  { destruct images; [congruence|discriminate]. }
  destruct (py_max_spec (map height images)) as (ch & Eh & Hinh & Hallh).
  { destruct images; [congruence|discriminate]. }
  rewrite Ew, Eh. cbn [bind].
  rewrite FloatFacts.grid_shape_exact by exact HN. cbn [bind].
  eexists. split; [reflexivity|]. cbn.
  rewrite Forall_map in Hallw, Hallh. repeat split; assumption.
Qed.

Lemma grid_covers (n : Z) :
  1 <= n ->
  1 <= ceil_sqrt n /\
  (ceil_sqrt n - 1) * (ceil_sqrt n - 1) < n <= ceil_sqrt n * ceil_sqrt n /\
  1 <= ceil_div n (ceil_sqrt n) /\
  ceil_sqrt n * (ceil_div n (ceil_sqrt n) - 1) < n
    <= ceil_sqrt n * ceil_div n (ceil_sqrt n).
Proof.
  intros Hn.
  destruct (FloatFacts.ceil_sqrt_bounds n Hn) as [Hc Hsq].
  pose proof (ceil_div_bounds n (ceil_sqrt n) ltac:(lia)) as Hr.
  split; [lia|]. split; [exact Hsq|]. split; [nia|exact Hr].
Qed.

Lemma Image_new_ok (m : Mode) (w h : Z) (color : pixel) :
  0 <= w -> 0 <= h ->
  Image_new m (w, h) color
  = Ok {| mode := m; width := w; height := h; getpixel := fun _ _ => color |}.
Proof.
  intros Hw Hh. unfold Image_new.
  replace ((w <? 0) || (h <? 0)) with false; [reflexivity|].
  symmetry. apply orb_false_iff. split; apply Z.ltb_ge; lia.
Qed.

(** The position of lines 130-131 in closed form. *)
Lemma position_ok (lay : layout) (idx : Z) (img : Image) :
  cols lay <> 0 ->
  position lay idx img
  = Ok ((idx mod cols lay) * cell_width lay + (cell_width lay - width img) / 2,
        (idx / cols lay) * cell_height lay + (cell_height lay - height img) / 2).
Proof.
  intros Hc. unfold position, pymod, floordiv.
  apply Z.eqb_neq in Hc. rewrite Hc. reflexivity.
Qed.

Lemma placements_ok (lay : layout) (images : list Image) (start : Z) :
  cols lay <> 0 ->
  exists ops,
    placements lay (enumerate start images) = Ok ops /\
    map fst ops = images /\
    forall k img, nth_error images k = Some img ->
      nth_error ops k
      = Some (img,
              (((start + Z.of_nat k) mod cols lay) * cell_width lay
               + (cell_width lay - width img) / 2,
               ((start + Z.of_nat k) / cols lay) * cell_height lay
               + (cell_height lay - height img) / 2)).
Proof.
  intros Hc. revert start.
  induction images as [|img rest IH]; intros start; cbn [enumerate placements].
  - exists []. split; [reflexivity|]. split; [reflexivity|].
    intros [|k] im; discriminate.
  - rewrite position_ok by exact Hc. cbn [bind].
    destruct (IH (start + 1)) as (ops & E & Hfst & Hnth).
    rewrite E. cbn [bind].
    eexists. split; [reflexivity|]. split; [cbn; congruence|].
    intros [|k] im Hk.
    + cbn in Hk |- *. injection Hk as <-. rewrite Z.add_0_r. reflexivity.
    + cbn [nth_error] in Hk |- *. rewrite (Hnth k im Hk).
      replace (start + 1 + Z.of_nat k) with (start + Z.of_nat (S k)) by lia.
      reflexivity.
Qed.

End SpritemapFacts.

(** *** Cells and boxes *)

Lemma centre_offset (cell extent : Z) :
  extent <= cell -> 0 <= (cell - extent) / 2 /\ (cell - extent) / 2 + extent <= cell.
Proof.
  intros H. pose proof (Z.div_mod (cell - extent) 2 ltac:(lia)) as E.
  pose proof (Z.mod_pos_bound (cell - extent) 2 ltac:(lia)) as B. lia.
Qed.

(** The cell of index [idx] in a grid of [c] columns filled row by row. *)
Lemma cell_of_index (c n rows idx : Z) :
  1 <= c -> n <= c * rows -> 0 <= idx < n ->
  0 <= idx mod c < c /\ 0 <= idx / c < rows.
Proof.
  intros Hc Hn Hi.
  pose proof (Z.mod_pos_bound idx c ltac:(lia)).
  pose proof (Z.div_pos idx c ltac:(lia) ltac:(lia)).
  split; [lia|]. split; [lia|].
  apply Z.div_lt_upper_bound; lia.
Qed.

Lemma cell_injective (c i j : Z) :
  1 <= c -> i mod c = j mod c -> i / c = j / c -> i = j.
Proof.
  intros Hc Hm Hd.
  rewrite (Z.div_mod i c), (Z.div_mod j c) by lia. congruence.
Qed.

(** Intervals inside different cells of one axis do not meet. *)
Lemma cells_apart (cell a b lo hi lo' hi' p : Z) :
  0 <= cell -> a <> b ->
  a * cell <= lo -> hi <= (a + 1) * cell ->
  b * cell <= lo' -> hi' <= (b + 1) * cell ->
  lo <= p < hi -> ~ (lo' <= p < hi').
Proof.
  intros Hcell Hab H1 H2 H3 H4 Hp Hp'.
  destruct (Z_lt_ge_dec a b).
  - assert ((a + 1) * cell <= b * cell) by nia. lia.
  - assert ((b + 1) * cell <= a * cell) by nia. lia.
Qed.

Section PasteFacts.
Context {core : ImagingCore}.

Lemma in_box_spec (im : Image) (x y px py : Z) :
  in_box im x y px py = true
  <-> (x <= px < x + width im) /\ (y <= py < y + height im).
Proof.
  unfold in_box. rewrite !andb_true_iff, !Z.leb_le, !Z.ltb_lt. tauto.
Qed.

Lemma in_image_spec (im : Image) (px py : Z) :
  in_image im px py = true <-> (0 <= px < width im) /\ (0 <= py < height im).
Proof.
  unfold in_image. rewrite !andb_true_iff, !Z.leb_le, !Z.ltb_lt. tauto.
Qed.

Lemma paste_all_frame (canvas : Image) (ops : list (Image * (Z * Z))) :
  mode (paste_all canvas ops) = mode canvas /\
  width (paste_all canvas ops) = width canvas /\
  height (paste_all canvas ops) = height canvas.
Proof.
  revert canvas. unfold paste_all.
  induction ops as [|[im [x y]] rest IH]; intros canvas; cbn [fold_left].
  - auto.
  - destruct (IH (paste canvas im (x, y))) as (Hm & Hw & Hh).
    cbn [fst snd]. rewrite Hm, Hw, Hh. cbn. auto.
Qed.

(** A pixel outside every pasted box keeps its value. *)
Lemma paste_all_outside (canvas : Image) (ops : list (Image * (Z * Z))) (px py : Z) :
  (forall im x y, In (im, (x, y)) ops -> in_box im x y px py = false) ->
  getpixel (paste_all canvas ops) px py = getpixel canvas px py.
Proof.
  revert canvas. unfold paste_all.
  induction ops as [|[im [x y]] rest IH]; intros canvas Hout; cbn [fold_left].
  - reflexivity.
  - rewrite IH by (intros; apply Hout; now right).
    cbn [fst snd paste getpixel].
    rewrite (Hout im x y) by now left. reflexivity.
Qed.

(** A pixel inside a pasted box that no later box covers shows the pasted
    image. *)
Lemma paste_all_inside (canvas : Image) (before after : list (Image * (Z * Z)))
    (im : Image) (x y px py : Z) :
  in_box im x y px py = true -> in_image canvas px py = true ->
  (forall im' x' y', In (im', (x', y')) after -> in_box im' x' y' px py = false) ->
  getpixel (paste_all canvas (before ++ (im, (x, y)) :: after)) px py
  = getpixel (as_mode im (mode canvas)) (px - x) (py - y).
Proof.
  intros Hin Hcanvas Hafter. unfold paste_all.
  rewrite fold_left_app. cbn [fold_left fst snd].
  fold (paste_all canvas before).
  set (c := paste_all canvas before).
  fold (paste_all (paste c im (x, y)) after).
  rewrite paste_all_outside by exact Hafter.
  destruct (paste_all_frame canvas before) as (Hm & Hw & Hh). fold c in Hm, Hw, Hh.
  cbn [paste getpixel]. rewrite Hin.
  replace (in_image c px py) with true.
  - cbn [andb]. now rewrite Hm.
  - symmetry. apply in_image_spec. rewrite Hw, Hh. now apply in_image_spec.
Qed.

Lemma generate_spritemap_saves (open : string -> result Image)
    (image_paths : list string) (output_dir spritemap_name : string)
    (images : list Image) (out : list event) (spritemap : Image) :
  load_images open image_paths = (images, out) ->
  images <> [] ->
  build_spritemap images = Ok spritemap ->
  generate_spritemap open image_paths output_dir spritemap_name
  = ((out ++ [Save (path_join output_dir spritemap_name) spritemap;
              Print ("Spritemap saved: " ++ path_join output_dir spritemap_name)%string])%list,
     Ok tt).
Proof.
  intros Hload Hne Hbuild. unfold generate_spritemap.
  destruct image_paths as [|p ps].
  - cbn in Hload. injection Hload as <- <-. congruence.
  - rewrite Hload. destruct images as [|im ims]; [congruence|].
    rewrite Hbuild. reflexivity.
Qed.

End PasteFacts.

Section SpritemapClaims.
Context {core : ImagingCore}.

(** The fully transparent canvas of line 127. *)
Lemma build_spritemap_ok (images : list Image) :
  1 <= Z.of_nat (List.length images) < 2 ^ 52 ->
  forallb valid_image images = true ->
  exists lay ops,
    spritemap_layout images = Ok lay /\
    placements lay (enumerate 0 images) = Ok ops /\
    build_spritemap images
    = Ok (paste_all {| mode := Mode_RGBA;
                       width := cols lay * cell_width lay;
                       height := rows lay * cell_height lay;
                       getpixel := fun _ _ => [0; 0; 0; 0] |} ops) /\
    0 <= cell_width lay /\ 0 <= cell_height lay /\
    1 <= cols lay /\ 1 <= rows lay.
Proof.
  intros HN Hvalid.
  destruct (spritemap_layout_ok images HN)
    as (lay & El & Hinw & Hallw & Hinh & Hallh & Hcount & Hcols & Hrows & Hsw & Hsh).
  destruct (grid_covers (count lay) ltac:(lia)) as (Hc1 & _ & Hr1 & _).
  rewrite <- Hcols in *. rewrite <- Hrows in *.
  assert (Hcw : 0 <= cell_width lay /\ 0 <= cell_height lay).
  { rewrite forallb_forall in Hvalid.
    apply in_map_iff in Hinw as (a & Ea & Ha).
    apply in_map_iff in Hinh as (b & Eb & Hb).
    apply Hvalid, valid_image_spec in Ha. apply Hvalid, valid_image_spec in Hb.
    lia. }
  destruct (placements_ok lay images 0 ltac:(lia)) as (ops & Eo & _).
  exists lay, ops. split; [exact El|]. split; [exact Eo|].
  split; [|lia].
  unfold build_spritemap. rewrite El. cbn [bind]. rewrite Hsw, Hsh.
  rewrite Image_new_ok by nia. cbn [bind]. rewrite Eo. reflexivity.
Qed.

(** C2. For a list of N images that opened, [1 <= N < 2^52] (every list a
    machine can hold), [generate_spritemap] takes the greatest width and the
    greatest height as the size of a cell, [cols = ceil(sqrt(N))] columns
    and [rows = ceil(N / cols)] rows, the least number of rows with
    [cols * rows >= N], and saves a canvas of [cols * cell_width] by
    [rows * cell_height] pixels. *)
Theorem generate_spritemap_grid (open : string -> result Image)
    (image_paths : list string) (output_dir spritemap_name : string)
    (images : list Image) (out : list event) :
  load_images open image_paths = (images, out) ->
  1 <= Z.of_nat (List.length images) < 2 ^ 52 ->
  forallb valid_image images = true ->
  exists lay spritemap,
    spritemap_layout images = Ok lay /\
    (In (cell_width lay) (map width images) /\
     Forall (fun im => width im <= cell_width lay) images) /\
    (In (cell_height lay) (map height images) /\
     Forall (fun im => height im <= cell_height lay) images) /\
    count lay = Z.of_nat (List.length images) /\
    (cols lay = ceil_sqrt (count lay) /\ 1 <= cols lay /\
     (cols lay - 1) * (cols lay - 1) < count lay <= cols lay * cols lay) /\
    (rows lay = ceil_div (count lay) (cols lay) /\ 1 <= rows lay /\
     cols lay * (rows lay - 1) < count lay <= cols lay * rows lay) /\
    build_spritemap images = Ok spritemap /\
    width spritemap = cols lay * cell_width lay /\
    height spritemap = rows lay * cell_height lay /\
    generate_spritemap open image_paths output_dir spritemap_name
    = ((out ++ [Save (path_join output_dir spritemap_name) spritemap;
                Print ("Spritemap saved: "
                       ++ path_join output_dir spritemap_name)%string])%list,
       Ok tt).
Proof.
  intros Hload HN Hvalid.
  destruct (build_spritemap_ok images HN Hvalid)
    as (lay & ops & El & Eo & Eb & _).
  destruct (spritemap_layout_ok images HN)
    as (lay' & El' & Hinw & Hallw & Hinh & Hallh & Hcount & Hcols & Hrows & _).
  assert (lay' = lay) by congruence. subst lay'.
  destruct (grid_covers (count lay) ltac:(lia)) as (Hc1 & Hsq & Hr1 & Hrw).
  rewrite <- Hcols in *. rewrite <- Hrows in *.
  eexists lay, _. split; [exact El|].
  split; [auto|]. split; [auto|]. split; [exact Hcount|].
  split; [auto|]. split; [auto|]. split; [exact Eb|].
  destruct (paste_all_frame
              {| mode := Mode_RGBA; width := cols lay * cell_width lay;
                 height := rows lay * cell_height lay;
                 getpixel := fun _ _ => [0; 0; 0; 0] |} ops) as (_ & Hw & Hh).
  split; [exact Hw|]. split; [exact Hh|].
  apply generate_spritemap_saves with (images := images); try assumption.
  destruct images; [cbn in HN; lia|discriminate].
Qed.

(** When no path opens, no image is loaded and each path is reported. *)
Lemma load_images_none_opens (e : exn) (image_paths : list string) :
  load_images (fun _ => Err e) image_paths
  = ([], map (fun path => Print ("Error opening " ++ path ++ " for spritemap: "
                                 ++ exn_str e)%string) image_paths).
Proof.
  induction image_paths as [|path rest IH]; cbn [load_images map].
  - reflexivity.
  - rewrite IH. reflexivity.
Qed.

(** C8. With no path at all [generate_spritemap] prints that there is
    nothing to do and returns: nothing is opened, no canvas is built or
    saved, no exception is raised.  The same holds when there are paths and
    none of them opens: the failures are printed, nothing is saved and the
    function returns. *)
Theorem generate_spritemap_empty (open : string -> result Image)
    (output_dir spritemap_name : string) :
  generate_spritemap open [] output_dir spritemap_name
  = ([Print "No images to generate a spritemap."], Ok tt) /\
  forall e image_paths,
    exists out,
      generate_spritemap (fun _ => Err e) image_paths output_dir spritemap_name
      = (out, Ok tt) /\
      existsb is_save out = false.
Proof.
  split; [reflexivity|].
  intros e image_paths. unfold generate_spritemap.
  destruct image_paths as [|path rest].
  - eexists. split; reflexivity.
  - rewrite load_images_none_opens.
    eexists. split; [reflexivity|].
    rewrite existsb_app. cbn [existsb is_save orb].
    rewrite orb_false_r.
    generalize (path :: rest). intros l.
    induction l as [|p l IH]; [reflexivity|exact IH].
Qed.

(** Where each paste of the loop goes, and that it stays in its cell. *)
Lemma placement_geometry (images : list Image) (lay : layout)
    (ops : list (Image * (Z * Z))) :
  1 <= Z.of_nat (List.length images) < 2 ^ 52 ->
  forallb valid_image images = true ->
  spritemap_layout images = Ok lay ->
  placements lay (enumerate 0 images) = Ok ops ->
  forall idx img x y, nth_error ops idx = Some (img, (x, y)) ->
    let col := Z.of_nat idx mod cols lay in
    let row := Z.of_nat idx / cols lay in
    nth_error images idx = Some img /\
    x = col * cell_width lay + (cell_width lay - width img) / 2 /\
    y = row * cell_height lay + (cell_height lay - height img) / 2 /\
    (0 <= col < cols lay /\ 0 <= row < rows lay) /\
    (col * cell_width lay <= x /\ x + width img <= (col + 1) * cell_width lay) /\
    (row * cell_height lay <= y /\ y + height img <= (row + 1) * cell_height lay).
Proof.
  intros HN Hvalid El Eo idx img x y Hnth col row.
  destruct (spritemap_layout_ok images HN)
    as (lay' & El' & _ & Hallw & _ & Hallh & Hcount & Hcols & Hrows & _).
  assert (lay' = lay) by congruence. subst lay'.
  destruct (grid_covers (count lay) ltac:(lia)) as (Hc1 & _ & _ & Hrw).
  rewrite <- Hcols in *. rewrite <- Hrows in *.
  destruct (placements_ok lay images 0 ltac:(lia)) as (ops' & Eo' & Hfst & Hform).
  assert (ops' = ops) by congruence. subst ops'.
  assert (Himg : nth_error images idx = Some img).
  { rewrite <- Hfst, nth_error_map, Hnth. reflexivity. }
  specialize (Hform idx img Himg). rewrite Hnth, !Z.add_0_l in Hform.
  injection Hform as Hx Hy.
  fold col in Hx. fold row in Hy.
  assert (Hlt : 0 <= Z.of_nat idx < count lay).
  { assert (idx < List.length images)%nat
      by (apply nth_error_Some; congruence). lia. }
  destruct (cell_of_index (cols lay) (count lay) (rows lay) (Z.of_nat idx))
    as [Hcol Hrow]; [lia|lia|lia|]. fold col in Hcol. fold row in Hrow.
  pose proof (nth_error_In _ _ Himg) as Hin.
  rewrite Forall_forall in Hallw, Hallh.
  destruct (centre_offset (cell_width lay) (width img) (Hallw img Hin)).
  destruct (centre_offset (cell_height lay) (height img) (Hallh img Hin)).
  repeat split; try assumption; try lia.
Qed.

(** In the finished canvas every pixel of the box of a paste shows the
    image pasted there: the boxes lie in the canvas and no later paste
    covers them. *)
Lemma spritemap_shows (images : list Image) (lay : layout)
    (ops : list (Image * (Z * Z))) :
  1 <= Z.of_nat (List.length images) < 2 ^ 52 ->
  forallb valid_image images = true ->
  spritemap_layout images = Ok lay ->
  placements lay (enumerate 0 images) = Ok ops ->
  forall idx img x y, nth_error ops idx = Some (img, (x, y)) ->
  forall px py, in_box img x y px py = true ->
    getpixel (paste_all {| mode := Mode_RGBA;
                           width := cols lay * cell_width lay;
                           height := rows lay * cell_height lay;
                           getpixel := fun _ _ => [0; 0; 0; 0] |} ops) px py
    = getpixel (as_mode img Mode_RGBA) (px - x) (py - y).
Proof.
  intros HN Hvalid El Eo idx img x y Hnth px py Hin.
  destruct (build_spritemap_ok images HN Hvalid)
    as (lay' & ops' & El' & Eo' & _ & Hcw & Hch & Hc1 & Hr1).
  assert (lay' = lay) by congruence. subst lay'.
  pose proof (placement_geometry images lay ops HN Hvalid El Eo) as Geo.
  set (canvas := {| mode := Mode_RGBA; width := cols lay * cell_width lay;
                    height := rows lay * cell_height lay;
                    getpixel := fun _ _ => [0; 0; 0; 0] |}).
  destruct (Geo idx img x y Hnth)
    as (_ & _ & _ & [Hcol Hrow] & [Hx1 Hx2] & [Hy1 Hy2]).
  destruct (nth_error_split ops idx Hnth) as (before & after & Eops & Hlen).
  rewrite Eops.
  change Mode_RGBA with (mode canvas).
  apply paste_all_inside; [exact Hin| |].
  - apply in_image_spec. apply in_box_spec in Hin as [Hpx Hpy].
    cbn [canvas width height].
    assert ((Z.of_nat idx mod cols lay + 1) * cell_width lay
            <= cols lay * cell_width lay) by nia.
    assert ((Z.of_nat idx / cols lay + 1) * cell_height lay
            <= rows lay * cell_height lay) by nia.
    assert (0 <= Z.of_nat idx mod cols lay * cell_width lay) by nia.
    assert (0 <= Z.of_nat idx / cols lay * cell_height lay) by nia.
    lia.
  - intros im' x' y' Hin'.
    apply In_nth_error in Hin' as [j Hj].
    assert (Hnth' : nth_error ops (idx + 1 + j) = Some (im', (x', y'))).
    { rewrite Eops, nth_error_app2 by lia.
      replace (idx + 1 + j - List.length before)%nat with (S j) by lia.
      exact Hj. }
    destruct (Geo _ im' x' y' Hnth')
      as (_ & _ & _ & _ & [Hx1' Hx2'] & [Hy1' Hy2']).
    apply in_box_spec in Hin as [Hpx Hpy].
    destruct (in_box im' x' y' px py) eqn:Hin''; [exfalso|reflexivity].
    apply in_box_spec in Hin'' as [Hpx' Hpy'].
    destruct (Z.eq_dec (Z.of_nat idx mod cols lay)
                       (Z.of_nat (idx + 1 + j) mod cols lay)) as [Em|Nm].
    + destruct (Z.eq_dec (Z.of_nat idx / cols lay)
                         (Z.of_nat (idx + 1 + j) / cols lay)) as [Ed|Nd].
      * assert (Z.of_nat idx = Z.of_nat (idx + 1 + j))
          by (apply (cell_injective (cols lay)); assumption).
        lia.
      * eapply (cells_apart (cell_height lay) _ _ y (y + height img)
                  y' (y' + height im') py); eassumption.
    + eapply (cells_apart (cell_width lay) _ _ x (x + width img)
                x' (x' + width im') px); eassumption.
Qed.

(** C3. For a list of N images, [1 <= N < 2^52], the loop pastes the images
    in the order of the list, the image of index [idx] at
    [x = (idx mod cols) * cell_width + (cell_width - width) // 2] and
    [y = (idx // cols) * cell_height + (cell_height - height) // 2], and
    the finished spritemap shows it there: the pixel [(px, py)] of the box
    at [(x, y)] is the pixel [(px - x, py - y)] of the image.  For images
    of sizes 10x10, 8x8, 10x6 and 8x10 the second one goes to [(11, 1)]
    and fills the pixels 11..18 by 1..8 of the spritemap. *)
Theorem spritemap_positions (images : list Image) :
  1 <= Z.of_nat (List.length images) < 2 ^ 52 ->
  forallb valid_image images = true ->
  exists lay canvas ops,
    spritemap_layout images = Ok lay /\
    Image_new Mode_RGBA (spritemap_width lay, spritemap_height lay) [0; 0; 0; 0]
    = Ok canvas /\
    placements lay (enumerate 0 images) = Ok ops /\
    build_spritemap images = Ok (paste_all canvas ops) /\
    map fst ops = images /\
    (forall idx img, nth_error images idx = Some img ->
       nth_error ops idx
       = Some (img,
               ((Z.of_nat idx mod cols lay) * cell_width lay
                + (cell_width lay - width img) / 2,
                (Z.of_nat idx / cols lay) * cell_height lay
                + (cell_height lay - height img) / 2))) /\
    (forall idx img, nth_error images idx = Some img ->
       let x := (Z.of_nat idx mod cols lay) * cell_width lay
                + (cell_width lay - width img) / 2 in
       let y := (Z.of_nat idx / cols lay) * cell_height lay
                + (cell_height lay - height img) / 2 in
       forall px py, x <= px < x + width img -> y <= py < y + height img ->
         getpixel (paste_all canvas ops) px py
         = getpixel (as_mode img Mode_RGBA) (px - x) (py - y)) /\
    (forall a b c d, images = [a; b; c; d] ->
       size a = (10, 10) -> size b = (8, 8) -> size c = (10, 6) -> size d = (8, 10) ->
       nth_error ops 1 = Some (b, (11, 1)) /\
       forall px py, 11 <= px < 19 -> 1 <= py < 9 ->
         getpixel (paste_all canvas ops) px py
         = getpixel (as_mode b Mode_RGBA) (px - 11) (py - 1)).
Proof.
  intros HN Hvalid.
  destruct (build_spritemap_ok images HN Hvalid)
    as (lay & ops & El & Eo & Eb & Hcw & Hch & Hc1 & Hr1).
  destruct (spritemap_layout_ok images HN)
    as (lay' & El' & Hinw & Hallw & Hinh & Hallh & Hcount & Hcols & Hrows & Hsw & Hsh).
  assert (lay' = lay) by congruence. subst lay'.
  destruct (placements_ok lay images 0 ltac:(lia)) as (ops' & Eo' & Hfst & Hform).
  assert (ops' = ops) by congruence. subst ops'.
  eexists lay, _, ops. split; [exact El|].
  split; [rewrite Hsw, Hsh; apply Image_new_ok; nia|].
  split; [exact Eo|]. split; [exact Eb|]. split; [exact Hfst|].
  split; [|split].
  - intros idx img Hnth. rewrite (Hform idx img Hnth), !Z.add_0_l. reflexivity.
  - intros idx img Hnth x y px py Hpx Hpy.
    pose proof (Hform idx img Hnth) as Hop. rewrite !Z.add_0_l in Hop.
    fold x y in Hop.
    apply (spritemap_shows images lay ops HN Hvalid El Eo idx img x y Hop).
    apply in_box_spec. split; assumption.
  - intros a b c d -> [= Haw Hah] [= Hbw Hbh] [= Hcw' Hch'] [= Hdw Hdh].
    assert (Hb1 : nth_error ops 1 = Some (b, (11, 1))).
    { rewrite (Hform 1%nat b eq_refl).
      cbn [map List.length] in *. rewrite Hcount in Hcols. cbn in Hcols.
      rewrite Haw, Hbw, Hcw', Hdw in *. rewrite Hah, Hbh, Hch', Hdh in *.
      assert (Ecw : cell_width lay = 10).
      { inversion Hallw; subst. cbn in Hinw. lia. }
      assert (Ech : cell_height lay = 10).
      { inversion Hallh; subst. cbn in Hinh. lia. }
      rewrite Hcols, Ecw, Ech. reflexivity. }
    split; [exact Hb1|].
    intros px py Hpx Hpy.
    apply (spritemap_shows [a; b; c; d] lay ops HN Hvalid El Eo 1%nat b 11 1 Hb1).
    apply in_box_spec. rewrite Hbw, Hbh. lia.
Qed.

(** C9. For a list of N images, [1 <= N < 2^52], every pasted image lies in
    the cell of its index, the cell lies in the grid, so the image lies in
    the canvas; the boxes of two images do not meet, and in the finished
    canvas every pixel of every box shows the image pasted there: no paste
    overwrites another. *)
Theorem spritemap_boxes (images : list Image) :
  1 <= Z.of_nat (List.length images) < 2 ^ 52 ->
  forallb valid_image images = true ->
  exists lay ops spritemap,
    spritemap_layout images = Ok lay /\
    placements lay (enumerate 0 images) = Ok ops /\
    build_spritemap images = Ok spritemap /\
    forall idx img x y, nth_error ops idx = Some (img, (x, y)) ->
      let col := Z.of_nat idx mod cols lay in
      let row := Z.of_nat idx / cols lay in
      (0 <= col < cols lay /\ 0 <= row < rows lay) /\
      (0 <= (cell_width lay - width img) / 2 /\ 0 <= (cell_height lay - height img) / 2) /\
      (col * cell_width lay <= x /\ x + width img <= (col + 1) * cell_width lay) /\
      (row * cell_height lay <= y /\ y + height img <= (row + 1) * cell_height lay) /\
      (0 <= x /\ x + width img <= width spritemap) /\
      (0 <= y /\ y + height img <= height spritemap) /\
      (forall idx' img' x' y', idx' <> idx ->
         nth_error ops idx' = Some (img', (x', y')) ->
         forall px py, in_box img x y px py = true ->
                       in_box img' x' y' px py = false) /\
      (forall px py, in_box img x y px py = true ->
         getpixel spritemap px py
         = getpixel (as_mode img Mode_RGBA) (px - x) (py - y)).
Proof.
  intros HN Hvalid.
  destruct (build_spritemap_ok images HN Hvalid)
    as (lay & ops & El & Eo & Eb & Hcw & Hch & Hc1 & Hr1).
  pose proof (placement_geometry images lay ops HN Hvalid El Eo) as Geo.
  eexists lay, ops, _. split; [exact El|]. split; [exact Eo|]. split; [exact Eb|].
  set (canvas := {| mode := Mode_RGBA; width := cols lay * cell_width lay;
                    height := rows lay * cell_height lay;
                    getpixel := fun _ _ => [0; 0; 0; 0] |}).
  destruct (paste_all_frame canvas ops) as (_ & Hw & Hh).
  intros idx img x y Hnth col row.
  destruct (Geo idx img x y Hnth)
    as (Himg & Hx & Hy & [Hcol Hrow] & [Hx1 Hx2] & [Hy1 Hy2]).
  fold col in Hx, Hcol, Hx1, Hx2. fold row in Hy, Hrow, Hy1, Hy2.
  assert (Hdisj : forall idx' img' x' y', idx' <> idx ->
            nth_error ops idx' = Some (img', (x', y')) ->
            forall px py, in_box img x y px py = true ->
                          in_box img' x' y' px py = false).
  { intros idx' img' x' y' Hne Hnth' px py Hin.
    destruct (Geo idx' img' x' y' Hnth')
      as (_ & _ & _ & _ & [Hx1' Hx2'] & [Hy1' Hy2']).
    apply in_box_spec in Hin as [Hpx Hpy].
    destruct (in_box img' x' y' px py) eqn:Hin'; [exfalso|reflexivity].
    apply in_box_spec in Hin' as [Hpx' Hpy'].
    destruct (Z.eq_dec (Z.of_nat idx mod cols lay) (Z.of_nat idx' mod cols lay)) as [Em|Nm].
    - destruct (Z.eq_dec (Z.of_nat idx / cols lay) (Z.of_nat idx' / cols lay)) as [Ed|Nd].
      + apply Hne. apply Nat2Z.inj. symmetry.
        apply (cell_injective (cols lay)); assumption.
      + eapply (cells_apart (cell_height lay) _ _ y (y + height img)
                  y' (y' + height img') py); eassumption.
    - eapply (cells_apart (cell_width lay) _ _ x (x + width img)
                x' (x' + width img') px); eassumption. }
  assert (Hxin : 0 <= x /\ x + width img <= cols lay * cell_width lay).
  { split; [nia|]. assert ((col + 1) * cell_width lay <= cols lay * cell_width lay) by nia.
    lia. }
  assert (Hyin : 0 <= y /\ y + height img <= rows lay * cell_height lay).
  { split; [nia|]. assert ((row + 1) * cell_height lay <= rows lay * cell_height lay) by nia.
    lia. }
  split; [auto|]. split; [lia|]. split; [auto|]. split; [auto|].
  split; [rewrite Hw; exact Hxin|]. split; [rewrite Hh; exact Hyin|].
  split; [exact Hdisj|].
  intros px py Hin.
  destruct (nth_error_split ops idx Hnth) as (before & after & Eops & Hlen).
  rewrite Eops.
  change Mode_RGBA with (mode canvas).
  apply paste_all_inside; [exact Hin| |].
  - apply in_image_spec. apply in_box_spec in Hin. cbn [canvas width height]. lia.
  - intros im' x' y' Hin'.
    apply In_nth_error in Hin' as [j Hj].
    apply (Hdisj (idx + 1 + j)%nat im' x' y'); [lia| |exact Hin].
    rewrite Eops.
    rewrite nth_error_app2 by lia.
    replace (idx + 1 + j - List.length before)%nat with (S j) by lia.
    exact Hj.
Qed.

End SpritemapClaims.

(** * Further properties of the code *)

(** ** pixelate_image *)

Section PixelateMore.
Context {core : ImagingCore}.

Lemma resize_frame (im r : Image) (w h : Z) (f : Resampling) :
  resize im (w, h) f = Ok r ->
  mode r = mode im /\ width r = w /\ height r = h /\ 1 <= w /\ 1 <= h
  \/ r = im /\ w = width im /\ h = height im.
Proof.
  unfold resize.
  destruct ((w =? width im) && (h =? height im)) eqn:E.
  - apply andb_true_iff in E as [Ew Eh]. apply Z.eqb_eq in Ew, Eh.
    intros [= <-]. right. auto.
  - destruct ((w <? 1) || (h <? 1)) eqn:B; [discriminate|].
    apply orb_false_iff in B as [Bw Bh]. apply Z.ltb_ge in Bw, Bh.
    intros [= <-]. left.
    rewrite resample_mode, resample_width, resample_height. auto.
Qed.

Lemma autocontrast_frame (im r : Image) :
  autocontrast im = Ok r ->
  mode r = mode im /\ width r = width im /\ height r = height im /\
  autocontrast_supported (mode im) = true.
Proof.
  unfold autocontrast, ImageOps_lut.
  destruct (mode im) eqn:E; try discriminate; intros [= <-]; cbn; auto.
Qed.

(** When the two resizes succeed the image is not empty, the pixel size is
    not 0 and the upsampled image has the frame of the input. *)
Lemma pixelate_resize_frame (image : Image) (pixel_size : Z) (st : pixelate_locals) :
  pixelate_resize image pixel_size = Ok st ->
  pixel_size <> 0 /\ 1 <= width image /\ 1 <= height image /\
  mode (pixelated_image st) = mode image /\
  width (pixelated_image st) = width image /\
  height (pixelated_image st) = height image.
Proof.
  unfold pixelate_resize, floordiv.
  destruct (pixel_size =? 0) eqn:Hp; [discriminate|]. apply Z.eqb_neq in Hp.
  cbn [bind].
  destruct (resize image _ BILINEAR) as [small|e] eqn:Es; [|discriminate].
  cbn [bind].
  destruct (resize small (size image) NEAREST) as [big|e] eqn:Eb; [|discriminate].
  cbn [bind]. intros [= <-]. cbn [pixelated_image].
  unfold size in Eb. apply resize_frame in Es. apply resize_frame in Eb.
  split; [exact Hp|].
  destruct Eb as [(Hm & Hw & Hh & Hw1 & Hh1)|(-> & Hw & Hh)].
  - destruct Es as [(Hm' & _)|(-> & _)]; repeat split; congruence || lia.
  - destruct Es as [(Hm' & Hw' & Hh' & Hw1 & Hh1)|(-> & Hw' & Hh')].
    + repeat split; congruence || lia.
    + repeat split; lia.
Qed.


(** Every image [pixelate_image] returns has a valid size. *)
Lemma pixelate_image_valid (image : Image) (pixel_size : Z) (auto_adjust : bool)
    (r : Image) :
  pixelate_image image pixel_size auto_adjust = Ok r -> valid_image r = true.
Proof.
  unfold pixelate_image.
  destruct (pixelate_resize image pixel_size) as [st|e] eqn:E; [|discriminate].
  apply pixelate_resize_frame in E as (Hp & Hw & Hh & Hm & Hbw & Hbh).
  cbn [bind]. intros H. apply valid_image_spec.
  destruct auto_adjust.
  - apply autocontrast_frame in H as (_ & Hw' & Hh' & _). lia.
  - injection H as <-. lia.
Qed.

(** For an image of width and height at least 1, [pixelate_image] returns
    an image exactly when the pixel size is not 0 and, with [auto_adjust],
    the mode is L or RGB. *)
Theorem pixelate_image_ok_iff (image : Image) (pixel_size : Z) (auto_adjust : bool) :
  1 <= width image -> 1 <= height image ->
  is_ok (pixelate_image image pixel_size auto_adjust)
  = negb (pixel_size =? 0)
    && (negb auto_adjust || autocontrast_supported (mode image)).
Proof.
  intros Hw Hh.
  destruct (Z.eq_dec pixel_size 0) as [->|Hp]; [reflexivity|].
  destruct (pixelate_resize_ok image pixel_size Hw Hh Hp)
    as (st & E & _ & _ & _ & _ & _ & Hm & _).
  unfold pixelate_image. rewrite E. cbn [bind].
  replace (pixel_size =? 0) with false by (symmetry; now apply Z.eqb_neq).
  destruct auto_adjust; [|reflexivity]. cbn [negb andb orb].
  destruct (autocontrast_supported (mode image)) eqn:S.
  - destruct (autocontrast_ok (pixelated_image st)) as (r & Er & _); [congruence|].
    now rewrite Er.
  - destruct (autocontrast_unsupported (pixelated_image st)) as (e & Ee & _);
      [congruence|]. now rewrite Ee.
Qed.

(** For a pixel size of at least 1 the downsampled image is never empty
    and never wider or higher than the source; its blocks of [pixel_size]
    pixels fit in the source, and a pixel size that reaches the width (the
    height) leaves one column (one row). *)
Theorem pixelate_small_image_bounds (image : Image) (pixel_size : Z) :
  1 <= width image -> 1 <= height image -> 1 <= pixel_size ->
  exists st, pixelate_resize image pixel_size = Ok st /\
    (1 <= width (small_image st) <= width image /\
     1 <= height (small_image st) <= height image) /\
    (pixel_size <= width image ->
     width (small_image st) * pixel_size <= width image
       < (width (small_image st) + 1) * pixel_size) /\
    (pixel_size <= height image ->
     height (small_image st) * pixel_size <= height image
       < (height (small_image st) + 1) * pixel_size) /\
    (width image <= pixel_size -> width (small_image st) = 1) /\
    (height image <= pixel_size -> height (small_image st) = 1).
Proof.
  intros Hw Hh Hp.
  destruct (pixelate_resize_ok image pixel_size Hw Hh ltac:(lia))
    as (st & E & Hnw & Hnh & _ & Hsw & Hsh & _).
  exists st. split; [exact E|]. rewrite Hsw, Hsh, Hnw, Hnh.
  pose proof (Z.div_mod (width image) pixel_size ltac:(lia)) as Ew.
  pose proof (Z.mod_pos_bound (width image) pixel_size ltac:(lia)) as Bw.
  pose proof (Z.div_mod (height image) pixel_size ltac:(lia)) as Eh.
  pose proof (Z.mod_pos_bound (height image) pixel_size ltac:(lia)) as Bh.
  assert (0 <= width image / pixel_size) by (apply Z.div_pos; lia).
  assert (0 <= height image / pixel_size) by (apply Z.div_pos; lia).
  assert (width image / pixel_size <= width image)
    by (apply Z.div_le_upper_bound; nia).
  assert (height image / pixel_size <= height image)
    by (apply Z.div_le_upper_bound; nia).
  split; [lia|].
  split; [intros; assert (1 <= width image / pixel_size) by
            (apply Z.div_le_lower_bound; lia); nia|].
  split; [intros; assert (1 <= height image / pixel_size) by
            (apply Z.div_le_lower_bound; lia); nia|].
  split; intros.
  - assert (width image / pixel_size <= 1) by (apply Z.div_le_upper_bound; lia). lia.
  - assert (height image / pixel_size <= 1) by (apply Z.div_le_upper_bound; lia). lia.
Qed.

End PixelateMore.

(** ** generate_spritemap *)

Section SpritemapMore.
Context {core : ImagingCore}.

(** The images loaded are those of the paths that open, in the order of
    the paths, and every path that does not open gives one printed line. *)
Theorem load_images_filter (open : string -> result Image) (image_paths : list string) :
  map Ok (fst (load_images open image_paths)) = filter is_ok (map open image_paths) /\
  List.length (snd (load_images open image_paths))
  = List.length (filter (fun r => negb (is_ok r)) (map open image_paths)) /\
  existsb is_save (snd (load_images open image_paths)) = false.
Proof.
  induction image_paths as [|path rest IH]; cbn [load_images map filter].
  - auto.
  - destruct (load_images open rest) as [images out]. cbn [fst snd] in IH.
    destruct IH as (IH1 & IH2 & IH3).
    destruct (open path) as [img|e]; cbn [is_ok negb fst snd map List.length existsb is_save orb].
    + unfold copy. rewrite IH1. auto.
    + rewrite IH1, IH2. auto.
Qed.

(** The grid is square or one row short of square. *)
Theorem spritemap_nearly_square (images : list Image) :
  1 <= Z.of_nat (List.length images) < 2 ^ 52 ->
  exists lay, spritemap_layout images = Ok lay /\
    rows lay <= cols lay <= rows lay + 1.
Proof.
  intros HN.
  destruct (spritemap_layout_ok images HN)
    as (lay & El & _ & _ & _ & _ & Hcount & Hcols & Hrows & _).
  destruct (grid_covers (count lay) ltac:(lia)) as (Hc1 & Hsq & Hr1 & Hrw).
  rewrite <- Hcols in *. rewrite <- Hrows in *.
  exists lay. split; [exact El|]. nia.
Qed.

(** Outside the pasted boxes the canvas keeps its transparent background,
    and its mode is RGBA. *)
Theorem spritemap_background (images : list Image) :
  1 <= Z.of_nat (List.length images) < 2 ^ 52 ->
  forallb valid_image images = true ->
  exists lay ops spritemap,
    spritemap_layout images = Ok lay /\
    placements lay (enumerate 0 images) = Ok ops /\
    build_spritemap images = Ok spritemap /\
    mode spritemap = Mode_RGBA /\
    forall px py,
      (forall img x y, In (img, (x, y)) ops -> in_box img x y px py = false) ->
      getpixel spritemap px py = [0; 0; 0; 0].
Proof.
  intros HN Hvalid.
  destruct (build_spritemap_ok images HN Hvalid) as (lay & ops & El & Eo & Eb & _).
  eexists lay, ops, _. split; [exact El|]. split; [exact Eo|]. split; [exact Eb|].
  split.
  - apply paste_all_frame.
  - intros px py Hout. now rewrite paste_all_outside.
Qed.

(** One image gives a grid of one cell: the canvas has the size of the
    image and shows it (in mode RGBA) from the corner. *)
Theorem spritemap_single_image (img : Image) :
  valid_image img = true ->
  exists spritemap,
    build_spritemap [img] = Ok spritemap /\
    mode spritemap = Mode_RGBA /\
    width spritemap = width img /\ height spritemap = height img /\
    forall px py, 0 <= px < width img -> 0 <= py < height img ->
      getpixel spritemap px py = getpixel (as_mode img Mode_RGBA) px py.
Proof.
  intros Hvalid. apply valid_image_spec in Hvalid as [Hw Hh].
  unfold build_spritemap, spritemap_layout.
  cbn [map py_max fold_left bind List.length].
  change (grid_shape (Z.of_nat 1)) with (Ok (A := Z * Z) (1, 1)).
  cbn [bind spritemap_width spritemap_height].
  rewrite !Z.mul_1_l, Image_new_ok by assumption. cbn [bind enumerate placements].
  rewrite position_ok by (cbn; lia).
  cbn [bind cols cell_width cell_height].
  rewrite !Z.sub_diag. cbn [Z.modulo Z.div Z.div_eucl Z.mul Z.add].
  eexists. split; [reflexivity|].
  cbn [paste_all fold_left fst snd paste mode width height getpixel].
  repeat split.
  intros px py Hpx Hpy.
  replace (in_box img 0 0 px py) with true
    by (symmetry; apply in_box_spec; lia).
  match goal with |- context [in_image ?c px py] =>
    replace (in_image c px py) with true
      by (symmetry; apply in_image_spec; cbn; lia) end.
  cbn [andb]. now rewrite !Z.sub_0_r.
Qed.

(** When all the images have one size the cells have that size and the
    images fill them: image [idx] goes to
    [((idx mod cols) * w, (idx // cols) * h)], with no margin, and the
    spritemap shows it over the whole of that cell. *)
Theorem spritemap_uniform_sizes (images : list Image) (w h : Z) :
  1 <= Z.of_nat (List.length images) < 2 ^ 52 ->
  0 <= w -> 0 <= h ->
  Forall (fun im => size im = (w, h)) images ->
  exists lay ops spritemap,
    spritemap_layout images = Ok lay /\
    cell_width lay = w /\ cell_height lay = h /\
    placements lay (enumerate 0 images) = Ok ops /\
    (forall idx img, nth_error images idx = Some img ->
       nth_error ops idx
       = Some (img, ((Z.of_nat idx mod cols lay) * w, (Z.of_nat idx / cols lay) * h))) /\
    build_spritemap images = Ok spritemap /\
    width spritemap = cols lay * w /\ height spritemap = rows lay * h /\
    (forall idx img, nth_error images idx = Some img ->
       let x := (Z.of_nat idx mod cols lay) * w in
       let y := (Z.of_nat idx / cols lay) * h in
       forall px py, x <= px < x + w -> y <= py < y + h ->
         getpixel spritemap px py
         = getpixel (as_mode img Mode_RGBA) (px - x) (py - y)).
Proof.
  intros HN Hw Hh Hsize.
  assert (Hvalid : forallb valid_image images = true).
  { apply forallb_forall. intros im Him.
    rewrite Forall_forall in Hsize. specialize (Hsize im Him).
    injection Hsize as Ew Eh. apply valid_image_spec. lia. }
  destruct (build_spritemap_ok images HN Hvalid)
    as (lay & ops & El & Eo & Eb & _ & _ & Hc1 & _).
  destruct (spritemap_layout_ok images HN)
    as (lay' & El' & Hinw & _ & Hinh & _ & _).
  assert (lay' = lay) by congruence. subst lay'.
  assert (Ecw : cell_width lay = w).
  { apply in_map_iff in Hinw as (a & Ea & Ha).
    rewrite Forall_forall in Hsize. specialize (Hsize a Ha).
    injection Hsize as Ew _. congruence. }
  assert (Ech : cell_height lay = h).
  { apply in_map_iff in Hinh as (a & Ea & Ha).
    rewrite Forall_forall in Hsize. specialize (Hsize a Ha).
    injection Hsize as _ Eh. congruence. }
  destruct (placements_ok lay images 0 ltac:(lia)) as (ops' & Eo' & _ & Hform).
  assert (ops' = ops) by congruence. subst ops'.
  assert (Hops : forall idx img, nth_error images idx = Some img ->
            nth_error ops idx
            = Some (img, ((Z.of_nat idx mod cols lay) * w,
                          (Z.of_nat idx / cols lay) * h))).
  { intros idx img Hnth. rewrite (Hform idx img Hnth), !Z.add_0_l.
    apply nth_error_In in Hnth.
    rewrite Forall_forall in Hsize. specialize (Hsize img Hnth).
    injection Hsize as Ew Eh.
    rewrite Ecw, Ech, Ew, Eh, !Z.sub_diag. cbn [Z.div Z.div_eucl].
    now rewrite !Z.add_0_r. }
  eexists lay, ops, _. split; [exact El|]. split; [exact Ecw|]. split; [exact Ech|].
  split; [exact Eo|]. split; [exact Hops|].
  split; [exact Eb|].
  destruct (paste_all_frame
              {| mode := Mode_RGBA; width := cols lay * cell_width lay;
                 height := rows lay * cell_height lay;
                 getpixel := fun _ _ => [0; 0; 0; 0] |} ops) as (_ & Hcw & Hch).
  split; [rewrite Hcw; cbn [width]; now rewrite Ecw|].
  split; [rewrite Hch; cbn [height]; now rewrite Ech|].
  intros idx img Hnth x y px py Hpx Hpy.
  apply (spritemap_shows images lay ops HN Hvalid El Eo idx img x y (Hops idx img Hnth)).
  apply nth_error_In in Hnth.
  rewrite Forall_forall in Hsize. specialize (Hsize img Hnth).
  injection Hsize as Ew Eh.
  apply in_box_spec. rewrite Ew, Eh. split; assumption.
Qed.

End SpritemapMore.

(** ** Strings and paths *)

Module StringFacts.
Local Open Scope string_scope.
Local Open Scope Z_scope.

Lemma app_assoc (a b c : string) : (a ++ b) ++ c = a ++ (b ++ c).
Proof. induction a as [|x a IH]; cbn; [reflexivity|now rewrite IH]. Qed.

Lemma length_app (a b : string) :
  String.length (a ++ b) = (String.length a + String.length b)%nat.
Proof. induction a as [|x a IH]; cbn; [reflexivity|now rewrite IH]. Qed.

Lemma drop_length_app (a b : string) : drop (String.length a) (a ++ b) = b.
Proof. induction a as [|x a IH]; cbn; [now destruct b|exact IH]. Qed.

Lemma take_length_app (a b : string) : take (String.length a) (a ++ b) = a.
Proof. induction a as [|x a IH]; cbn; [reflexivity|now rewrite IH]. Qed.

Lemma take_drop (n : nat) (s : string) : take n s ++ drop n s = s.
Proof.
  revert s. induction n as [|n IH]; intros s; [reflexivity|].
  destruct s as [|x s]; cbn; [reflexivity|now rewrite IH].
Qed.

Lemma substring_0 (n : nat) (s : string) : substring 0 n s = take n s.
Proof.
  revert s. induction n as [|n IH]; intros s.
  - destruct s; reflexivity.
  - destruct s as [|x s]; cbn; [reflexivity|now rewrite IH].
Qed.

(** [endswith] finds exactly the strings that are something followed by
    the suffix. *)
Lemma endswith_spec (s suffix : string) :
  endswith s suffix = true <-> exists pre, s = pre ++ suffix.
Proof.
  unfold endswith. rewrite andb_true_iff, Nat.leb_le, String.eqb_eq. split.
  - intros [Hlen Hdrop].
    exists (take (String.length s - String.length suffix) s).
    pose proof (take_drop (String.length s - String.length suffix) s) as E.
    rewrite Hdrop in E. now symmetry.
  - intros [pre ->]. rewrite length_app. split; [lia|].
    replace (String.length pre + String.length suffix - String.length suffix)%nat
      with (String.length pre) by lia.
    apply drop_length_app.
Qed.

Lemma endswith_app (pre s suffix : string) :
  endswith s suffix = true -> endswith (pre ++ s) suffix = true.
Proof.
  rewrite !endswith_spec. intros [p ->]. exists (pre ++ p). now rewrite app_assoc.
Qed.

Lemma endswith_any_app (pre s : string) (suffixes : list string) :
  endswith_any s suffixes = true -> endswith_any (pre ++ s) suffixes = true.
Proof.
  unfold endswith_any. rewrite !existsb_exists.
  intros (x & Hin & Hx). exists x. split; [exact Hin|now apply endswith_app].
Qed.

Lemma lower_app (a b : string) : lower (a ++ b) = lower a ++ lower b.
Proof. induction a as [|x a IH]; cbn; [reflexivity|now rewrite IH]. Qed.

(** [os.path.join(a, b)] ends with [b]. *)
Lemma path_join_suffix (a b : string) : exists pre, path_join a b = pre ++ b.
Proof.
  unfold path_join.
  destruct (prefix "/" b); [now exists ""|].
  destruct ((a =? "")%string || ends_with_slash a)%bool; [now exists a|].
  exists (a ++ "/"). now rewrite app_assoc.
Qed.

Lemma endswith_any_join (a b : string) (suffixes : list string) :
  endswith_any (lower b) suffixes = true ->
  endswith_any (lower (path_join a b)) suffixes = true.
Proof.
  intros H. destruct (path_join_suffix a b) as [pre ->].
  rewrite lower_app. now apply endswith_any_app.
Qed.

(** *** rfind *)

Lemma rfind_from_range (c : ascii) (s : string) (i : Z) :
  0 <= i -> rfind_from c s i = -1 \/ i <= rfind_from c s i.
Proof.
  revert i. induction s as [|a s IH]; intros i Hi; cbn [rfind_from].
  - now left.
  - destruct (IH (i + 1) ltac:(lia)) as [E|E].
    + rewrite E. cbn. destruct (Ascii.eqb a c); [right; lia|now left].
    + replace (0 <=? rfind_from c s (i + 1)) with true
        by (symmetry; apply Z.leb_le; lia).
      right. lia.
Qed.

(** Whether the character occurs does not depend on the start index. *)
Lemma rfind_from_absent (c : ascii) (s : string) (i j : Z) :
  0 <= i -> 0 <= j -> rfind_from c s i = -1 -> rfind_from c s j = -1.
Proof.
  revert i j. induction s as [|a s IH]; intros i j Hi Hj; cbn [rfind_from].
  - reflexivity.
  - destruct (rfind_from_range c s (i + 1) ltac:(lia)) as [E|E].
    + rewrite E, (IH (i + 1) (j + 1)) by (lia || assumption). cbn.
      destruct (Ascii.eqb a c); [lia|reflexivity].
    + replace (0 <=? rfind_from c s (i + 1)) with true
        by (symmetry; apply Z.leb_le; lia).
      lia.
Qed.

Lemma rfind_from_last (c : ascii) (a b : string) (i : Z) :
  0 <= i -> rfind c b = -1 ->
  rfind_from c (a ++ String c b) i = i + Z.of_nat (String.length a).
Proof.
  intros Hi Hb. revert i Hi.
  induction a as [|x a IH]; intros i Hi; cbn [append rfind_from String.length].
  - rewrite (rfind_from_absent c b 0 (i + 1)) by (lia || exact Hb).
    cbn. rewrite Ascii.eqb_refl. lia.
  - rewrite IH by lia.
    replace (0 <=? i + 1 + Z.of_nat (String.length a)) with true
      by (symmetry; apply Z.leb_le; lia).
    lia.
Qed.

Lemma rfind_from_app_absent (c : ascii) (a b : string) (i : Z) :
  0 <= i -> rfind c b = -1 ->
  rfind_from c (a ++ b) i = rfind_from c a i.
Proof.
  intros Hi Hb. revert i Hi.
  induction a as [|x a IH]; intros i Hi; cbn [append rfind_from].
  - now apply (rfind_from_absent c b 0 i).
  - now rewrite IH by lia.
Qed.

Lemma rfind_cons_absent (c x : ascii) (s : string) :
  x <> c -> rfind c s = -1 -> rfind c (String x s) = -1.
Proof.
  intros Hx Hs. unfold rfind. cbn [rfind_from].
  rewrite (rfind_from_absent c s 0 (0 + 1)) by (lia || exact Hs). cbn.
  apply Ascii.eqb_neq in Hx. now rewrite Hx.
Qed.

(** [basename] of a directory, a slash and a name without slash. *)
Lemma basename_join (d b : string) :
  rfind "/" b = -1 -> basename (d ++ String "/" b) = b.
Proof.
  intros Hb. unfold basename, rfind.
  rewrite rfind_from_last by (lia || exact Hb).
  replace (Z.to_nat (0 + Z.of_nat (String.length d) + 1))
    with (S (String.length d)) by lia.
  induction d as [|x d IH]; cbn; [reflexivity|exact IH].
Qed.

Lemma basename_plain (b : string) : rfind "/" b = -1 -> basename b = b.
Proof. intros Hb. unfold basename. rewrite Hb. reflexivity. Qed.

(** [splitext] of a name, a dot and an extension. *)
Lemma splitext_name (stem ext : string) :
  rfind "/" stem = -1 -> all_dots stem = false ->
  rfind "/" ext = -1 -> rfind "." ext = -1 ->
  splitext (stem ++ String "." ext) = (stem, String "." ext).
Proof.
  intros Hs Hd He1 He2. unfold splitext.
  assert (Hsep : rfind "/" (stem ++ String "." ext) = -1).
  { unfold rfind. rewrite rfind_from_app_absent; [exact Hs|lia|].
    apply rfind_cons_absent; [discriminate|exact He1]. }
  assert (Hdot : rfind "." (stem ++ String "." ext) = Z.of_nat (String.length stem)).
  { unfold rfind. rewrite rfind_from_last by (lia || exact He2). lia. }
  rewrite Hsep, Hdot.
  replace (Z.of_nat (String.length stem) >? -1) with true
    by (symmetry; apply Z.gtb_lt; lia).
  replace (Z.to_nat (-1 + 1)) with 0%nat by reflexivity.
  replace (Z.to_nat (Z.of_nat (String.length stem) - -1 - 1))
    with (String.length stem) by lia.
  rewrite substring_0, take_length_app, Hd, Nat2Z.id.
  cbn [andb negb]. now rewrite take_length_app, drop_length_app.
Qed.

End StringFacts.

(** ** get_image_files *)

Section DiscoveryFacts.
Context {World : Type} {fs : FileSystem World}.

Lemma scan_entries_spec (w : World) (input_path : string) (entries files : list string) :
  scan_entries w input_path entries files
  = files ++ map (path_join input_path)
               (filter (fun entry =>
                          isfile w (path_join input_path entry)
                          && endswith_any (lower entry) SUPPORTED_EXTENSIONS)
                       entries).
Proof.
  revert files. induction entries as [|entry rest IH]; intros files;
    cbn [scan_entries filter map].
  - now rewrite app_nil_r.
  - destruct (isfile w (path_join input_path entry)
              && endswith_any (lower entry) SUPPORTED_EXTENSIONS).
    + rewrite IH, <- app_assoc. reflexivity.
    + apply IH.
Qed.

(** For a directory the result is, in the order of the listing, the
    joined path of every entry that is a file with a supported extension;
    nothing is printed and no entry of a sub-directory is listed. *)
Theorem get_image_files_directory (w : World) (input_path : string)
    (entries : list string) :
  isfile w input_path = false -> isdir w input_path = true ->
  listdir w input_path = Ok entries ->
  get_image_files w input_path
  = ([], Ok (map (path_join input_path)
                 (filter (fun entry =>
                            isfile w (path_join input_path entry)
                            && endswith_any (lower entry) SUPPORTED_EXTENSIONS)
                         entries))).
Proof.
  intros Hf Hd Hl. unfold get_image_files. rewrite Hf, Hd, Hl.
  now rewrite scan_entries_spec.
Qed.

(** Every path [get_image_files] returns is a file whose name ends, in any
    letter case, with .png or .tga. *)
Theorem get_image_files_supported (w : World) (input_path : string)
    (out : list event) (image_files : list string) :
  get_image_files w input_path = (out, Ok image_files) ->
  Forall (fun p => isfile w p = true
                   /\ endswith_any (lower p) SUPPORTED_EXTENSIONS = true) image_files.
Proof.
  unfold get_image_files.
  destruct (isfile w input_path) eqn:Hf.
  - destruct (endswith_any (lower input_path) SUPPORTED_EXTENSIONS) eqn:He;
      intros [= <- <-]; repeat constructor; assumption.
  - destruct (isdir w input_path); [|intros [= <- <-]; constructor].
    destruct (listdir w input_path) as [entries|e]; [|discriminate].
    intros [= <- <-]. rewrite scan_entries_spec. cbn [app].
    apply Forall_forall. intros p Hp.
    apply in_map_iff in Hp as (entry & <- & Hin).
    apply filter_In in Hin as [_ Hw].
    apply andb_true_iff in Hw as [Hfile Hext].
    split; [exact Hfile|]. now apply StringFacts.endswith_any_join.
Qed.

(** A file is taken whatever the letter case of its extension. *)
Theorem get_image_files_any_case (w : World) (stem ext : string) :
  isfile w (stem ++ ext) = true ->
  In (lower ext) SUPPORTED_EXTENSIONS ->
  get_image_files w (stem ++ ext) = ([], Ok [(stem ++ ext)%string]).
Proof.
  intros Hf Hext. unfold get_image_files. rewrite Hf.
  replace (endswith_any (lower (stem ++ ext)) SUPPORTED_EXTENSIONS) with true;
    [reflexivity|].
  symmetry. rewrite StringFacts.lower_app.
  apply existsb_exists. exists (lower ext). split; [exact Hext|].
  apply StringFacts.endswith_spec. now exists (lower stem).
Qed.

End DiscoveryFacts.

(** ** process_single_image *)

Section ProcessFacts.
Context {core : ImagingCore} {World : Type} {fs : FileSystem World}.

Lemma output_path_suffix (filepath output_dir : string) :
  exists pre, output_path_of filepath output_dir = (pre ++ "_pixelated.png")%string.
Proof.
  unfold output_path_of.
  destruct (StringFacts.path_join_suffix output_dir
              (fst (splitext (basename filepath)) ++ "_pixelated.png")) as [pre ->].
  exists (pre ++ fst (splitext (basename filepath)))%string.
  now rewrite StringFacts.app_assoc.
Qed.

Lemma output_path_truthy (filepath output_dir : string) :
  truthy (Some (output_path_of filepath output_dir)) = true.
Proof.
  destruct (output_path_suffix filepath output_dir) as [pre ->].
  cbn [truthy]. apply negb_true_iff, String.eqb_neq.
  destruct pre; discriminate.
Qed.

(** The file written always has a name that ends with [_pixelated.png]:
    it is never the empty path, and it has a supported extension. *)
Theorem output_path_shape (filepath output_dir : string) :
  endswith (output_path_of filepath output_dir) "_pixelated.png" = true /\
  endswith_any (lower (output_path_of filepath output_dir)) SUPPORTED_EXTENSIONS = true /\
  output_path_of filepath output_dir <> ""%string.
Proof.
  destruct (output_path_suffix filepath output_dir) as [pre E].
  split; [|split].
  - apply StringFacts.endswith_spec. eauto.
  - rewrite E, StringFacts.lower_app. apply StringFacts.endswith_any_app. reflexivity.
  - rewrite E. destruct pre; discriminate.
Qed.

(** The output name is the input name without its directory and its
    extension: [stem.ext], in any directory and with any extension, goes
    to [stem_pixelated.png] in the output directory. *)
Theorem output_path_name (stem ext output_dir : string) :
  rfind "/" stem = -1 -> all_dots stem = false ->
  rfind "/" ext = -1 -> rfind "." ext = -1 ->
  output_path_of (stem ++ String "." ext) output_dir
  = path_join output_dir (stem ++ "_pixelated.png") /\
  forall d, output_path_of (d ++ String "/" (stem ++ String "." ext)) output_dir
            = path_join output_dir (stem ++ "_pixelated.png").
Proof.
  intros Hs Hd He1 He2.
  assert (Hb : rfind "/" (stem ++ String "." ext) = -1).
  { unfold rfind. rewrite StringFacts.rfind_from_app_absent; [exact Hs|lia|].
    apply StringFacts.rfind_cons_absent; [discriminate|exact He1]. }
  unfold output_path_of. split.
  - rewrite StringFacts.basename_plain by exact Hb.
    now rewrite StringFacts.splitext_name.
  - intros d. rewrite StringFacts.basename_join by exact Hb.
    now rewrite StringFacts.splitext_name.
Qed.

(** What one call leaves behind: on failure nothing is written and [None]
    is returned; on success exactly one file is written, the image
    [pixelate_image] returned, at the path that is returned. *)
Theorem process_single_image_result (w w' : World) (filepath output_dir : string)
    (pixel_size : Z) (auto_adjust : bool) (evs : list event) (out : option string) :
  process_single_image w filepath output_dir pixel_size auto_adjust = (w', evs, out) ->
  match out with
  | None => saved_paths evs = [] /\
            (w' = w \/ exists img result,
                image_open w filepath = Ok img /\
                pixelate_image img pixel_size auto_adjust = Ok result /\
                w' = fst (image_save w (output_path_of filepath output_dir) result))
  | Some path =>
      path = output_path_of filepath output_dir /\
      exists img result,
        image_open w filepath = Ok img /\
        pixelate_image img pixel_size auto_adjust = Ok result /\
        image_save w path result = (w', Ok tt) /\
        filter is_save evs = [Save path result]
  end.
Proof.
  unfold process_single_image.
  destruct (image_open w filepath) as [img|e] eqn:Eo.
  - destruct (pixelate_image img pixel_size auto_adjust) as [result|e] eqn:Ep.
    + destruct (image_save w (output_path_of filepath output_dir) result)
        as [w1 [[]|e]] eqn:Es; intros [= <- <- <-].
      * split; [reflexivity|]. exists img, result. auto.
      * split; [reflexivity|]. right. exists img, result. rewrite Es. auto.
    + intros [= <- <- <-]. auto.
  - intros [= <- <- <-]. auto.
Qed.

Lemma process_single_image_saved (w : World) (filepath output_dir : string)
    (pixel_size : Z) (auto_adjust : bool) :
  let '(_, evs, out) :=
    process_single_image w filepath output_dir pixel_size auto_adjust in
  (out = None /\ saved_paths evs = []) \/
  (out = Some (output_path_of filepath output_dir) /\
   saved_paths evs = [output_path_of filepath output_dir]).
Proof.
  unfold process_single_image.
  destruct (image_open w filepath) as [img|e]; [|now left].
  destruct (pixelate_image img pixel_size auto_adjust) as [result|e]; [|now left].
  destruct (image_save w (output_path_of filepath output_dir) result) as [w1 [[]|e]];
    [now right|now left].
Qed.

Lemma process_single_image_zero (w : World) (filepath output_dir : string)
    (auto_adjust : bool) :
  exists line,
    process_single_image w filepath output_dir 0 auto_adjust = (w, line, None) /\
    saved_paths line = [].
Proof.
  unfold process_single_image.
  destruct (image_open w filepath) as [img|e]; eexists; split; reflexivity.
Qed.

End ProcessFacts.

(** ** main *)

Lemma saved_paths_app (a b : list event) :
  saved_paths (a ++ b) = saved_paths a ++ saved_paths b.
Proof. unfold saved_paths. apply flat_map_app. Qed.

Lemma subseq_refl {A : Type} (l : list A) : subseq l l.
Proof. induction l; constructor; assumption. Qed.

Section MainFacts.
Context {core : ImagingCore} {World : Type} {fs : FileSystem World}.

Lemma load_images_saved_paths (open : string -> result Image) (image_paths : list string) :
  saved_paths (snd (load_images open image_paths)) = [].
Proof.
  induction image_paths as [|path rest IH]; cbn [load_images]; [reflexivity|].
  destruct (load_images open rest) as [images out]. cbn [snd] in IH.
  destruct (open path); cbn [snd]; exact IH.
Qed.

(** [generate_spritemap] writes at most the spritemap. *)
Lemma generate_spritemap_saved_paths (open : string -> result Image)
    (image_paths : list string) (output_dir spritemap_name : string) :
  incl (saved_paths (fst (generate_spritemap open image_paths output_dir spritemap_name)))
       [path_join output_dir spritemap_name].
Proof.
  unfold generate_spritemap.
  destruct image_paths as [|p ps]; [cbn; apply incl_nil_l|].
  pose proof (load_images_saved_paths open (p :: ps)) as Hl.
  destruct (load_images open (p :: ps)) as [images out]. cbn [snd] in Hl.
  destruct images as [|im ims].
  - cbn [fst]. rewrite saved_paths_app, Hl. cbn. apply incl_nil_l.
  - destruct (build_spritemap (im :: ims)); cbn [fst].
    + rewrite saved_paths_app, Hl. cbn. apply incl_refl.
    + rewrite Hl. apply incl_nil_l.
Qed.

Lemma commit_saved_paths (w : World) (evs : list event) :
  incl (saved_paths (snd (fst (commit w evs)))) (saved_paths evs).
Proof.
  revert w. induction evs as [|[line|path im] rest IH]; intros w; cbn [commit].
  - apply incl_refl.
  - specialize (IH w). destruct (commit w rest) as [[w' out] r].
    cbn [fst snd] in *. exact IH.
  - destruct (image_save w path im) as [w' [[]|e]].
    + specialize (IH w'). destruct (commit w' rest) as [[w'' out] r].
      cbn [fst snd] in *. cbn [saved_paths flat_map app].
      fold (saved_paths out). fold (saved_paths rest).
      now apply incl_cons; [left|apply incl_tl].
    + cbn. apply incl_nil_l.
Qed.

Lemma generate_spritemap_in_saved_paths (w : World) (image_paths : list string)
    (output_dir : string) :
  incl (saved_paths (snd (fst (generate_spritemap_in w image_paths output_dir))))
       [path_join output_dir "spritemap.png"].
Proof.
  unfold generate_spritemap_in.
  pose proof (generate_spritemap_saved_paths (image_open w) image_paths output_dir
                "spritemap.png") as Hg.
  destruct (generate_spritemap (image_open w) image_paths output_dir "spritemap.png")
    as [evs [[]|e]]; cbn [fst snd] in *.
  - eapply incl_tran; [apply commit_saved_paths|exact Hg].
  - exact Hg.
Qed.

Lemma get_image_files_saved_paths (w : World) (input_path : string) :
  saved_paths (fst (get_image_files w input_path)) = [].
Proof.
  unfold get_image_files.
  destruct (isfile w input_path).
  - destruct (endswith_any (lower input_path) SUPPORTED_EXTENSIONS); reflexivity.
  - destruct (isdir w input_path); [|reflexivity].
    destruct (listdir w input_path); reflexivity.
Qed.

(** The loop over the files, with the list it appends to. *)
Lemma process_files_spec (image_files : list string) (args : Args) :
  forall (w : World) (output_files : list string),
    let '(_, evs, outs) := process_files w image_files args output_files in
    outs = (output_files ++ saved_paths evs)%list /\
    subseq (saved_paths evs)
           (map (fun f => output_path_of f (args_output args)) image_files).
Proof.
  induction image_files as [|file rest IH]; intros w output_files;
    cbn [process_files map].
  - cbn. rewrite app_nil_r. split; [reflexivity|constructor].
  - pose proof (process_single_image_saved w file (args_output args)
                  (args_pixel_size args) (args_auto_adjust args)) as H1.
    destruct (process_single_image w file (args_output args) (args_pixel_size args)
                (args_auto_adjust args)) as [[w1 out1] out_file].
    destruct H1 as [[-> Hs]|[-> Hs]].
    + cbn [truthy]. specialize (IH w1 output_files).
      destruct (process_files w1 rest args output_files) as [[w2 out2] outs].
      destruct IH as [IH1 IH2].
      rewrite saved_paths_app, Hs. cbn [app].
      split; [exact IH1|now constructor].
    + rewrite output_path_truthy.
      specialize (IH w1 (output_files ++ [output_path_of file (args_output args)])%list).
      destruct (process_files w1 rest args _) as [[w2 out2] outs].
      destruct IH as [IH1 IH2].
      rewrite saved_paths_app, Hs. cbn [app].
      split; [now rewrite IH1, <- app_assoc|now constructor].
Qed.

(** The paths collected for the spritemap are exactly the files written,
    in the order they were written, and they follow the order of the
    input files: each is the output path of an input file, and a file that
    failed is left out. *)
Theorem process_files_saves (w w' : World) (image_files : list string) (args : Args)
    (evs : list event) (output_files : list string) :
  process_files w image_files args [] = (w', evs, output_files) ->
  output_files = saved_paths evs /\
  subseq output_files
         (map (fun f => output_path_of f (args_output args)) image_files).
Proof.
  intros E. pose proof (process_files_spec image_files args w []) as H.
  rewrite E in H. destruct H as [H1 H2]. cbn [app] in H1. subst output_files.
  auto.
Qed.

Lemma process_files_zero (image_files : list string) (args : Args) :
  args_pixel_size args = 0 ->
  forall (w : World) (output_files : list string),
    exists evs, process_files w image_files args output_files = (w, evs, output_files) /\
                saved_paths evs = [].
Proof.
  intros Hp. induction image_files as [|file rest IH]; intros w output_files;
    cbn [process_files].
  - now exists [].
  - rewrite Hp.
    destruct (process_single_image_zero w file (args_output args) (args_auto_adjust args))
      as (line & -> & Hl).
    cbn [truthy]. destruct (IH w output_files) as (evs & -> & He).
    eexists. split; [reflexivity|]. now rewrite saved_paths_app, Hl, He.
Qed.

(** With pixel size 0 [main] writes no file at all; when the output
    directory exists and image files are found it still ends normally,
    every file reported as failed, the world as it was. *)
Theorem main_pixel_size_zero (w w' : World) (args : Args) (evs : list event)
    (o : outcome) :
  args_pixel_size args = 0 ->
  main w args = (w', evs, o) ->
  saved_paths evs = [] /\
  (path_exists w (args_output args) = true ->
   forall out file rest,
     get_image_files w (args_input args) = (out, Ok (file :: rest)) ->
     w' = w /\ o = Finished).
Proof.
  intros Hp. unfold main.
  destruct (path_exists w (args_output args)) eqn:Hex.
  - cbn [negb].
    pose proof (get_image_files_saved_paths w (args_input args)) as Hg.
    destruct (get_image_files w (args_input args)) as [out1 [files|e]];
      cbn [fst] in Hg.
    + destruct files as [|file rest].
      * intros [= <- <- <-]. cbn [app]. rewrite saved_paths_app, Hg.
        split; [reflexivity|]. intros _ out f r [=].
      * destruct (process_files_zero (file :: rest) args Hp w []) as (evs2 & -> & He).
        destruct (args_spritemap args).
        -- cbn. intros [= <- <- <-].
           rewrite !saved_paths_app, Hg, He. split; [reflexivity|]. auto.
        -- intros [= <- <- <-].
           rewrite !saved_paths_app, Hg, He. split; [reflexivity|]. auto.
    + intros [= <- <- <-]. cbn [app]. rewrite Hg.
      split; [reflexivity|]. intros _ out f r [=].
  - destruct (makedirs w (args_output args)) as [w0 [[]|e]]; cbn [negb].
    + pose proof (get_image_files_saved_paths w0 (args_input args)) as Hg.
      destruct (get_image_files w0 (args_input args)) as [out1 [files|e]];
        cbn [fst] in Hg.
      * destruct files as [|file rest].
        -- intros [= <- <- <-]. cbn [app]. rewrite saved_paths_app, Hg.
           split; [reflexivity|]. discriminate.
        -- destruct (process_files_zero (file :: rest) args Hp w0 []) as (evs2 & -> & He).
           destruct (args_spritemap args).
           ++ cbn. intros [= <- <- <-].
              rewrite !saved_paths_app, Hg, He. split; [reflexivity|]. discriminate.
           ++ intros [= <- <- <-].
              rewrite !saved_paths_app, Hg, He. split; [reflexivity|]. discriminate.
      * intros [= <- <- <-]. cbn [app]. rewrite Hg. split; [reflexivity|discriminate].
    + intros [= <- <- <-]. split; [reflexivity|discriminate].
Qed.


(** Whatever happens, [main] writes nothing but pixelated outputs and,
    with the spritemap option, the spritemap in the output directory. *)
Theorem main_writes (w w' : World) (args : Args) (evs : list event) (o : outcome) :
  main w args = (w', evs, o) ->
  Forall (fun p => endswith p "_pixelated.png" = true \/
                   (args_spritemap args = true /\
                    p = path_join (args_output args) "spritemap.png"))
         (saved_paths evs).
Proof.
  unfold main.
  destruct (if path_exists w (args_output args) then (w, [], true)
            else match makedirs w (args_output args) with
                 | (w1, Ok _) => (w1, [], true)
                 | (w1, Err e) =>
                     (w1, [Print ("Error creating output directory "
                                  ++ args_output args ++ ": " ++ exn_str e)%string], false)
                 end) as [[w0 out0] created] eqn:E0.
  assert (H0 : saved_paths out0 = []).
  { destruct (path_exists w (args_output args)); [now injection E0 as <- <- <-|].
    destruct (makedirs w (args_output args)) as [w1 [[]|e]];
      now injection E0 as <- <- <-. }
  destruct created; cbn [negb]; [|intros [= <- <- <-]; rewrite H0; constructor].
  pose proof (get_image_files_saved_paths w0 (args_input args)) as Hg.
  destruct (get_image_files w0 (args_input args)) as [out1 [files|e]];
    cbn [fst] in Hg;
    [|intros [= <- <- <-]; rewrite saved_paths_app, H0, Hg; constructor].
  destruct files as [|file rest];
    [intros [= <- <- <-]; rewrite !saved_paths_app, H0, Hg; constructor|].
  pose proof (process_files_spec (file :: rest) args w0 []) as Hp.
  destruct (process_files w0 (file :: rest) args []) as [[w2 out2] outs].
  destruct Hp as [_ Hsub].
  assert (H2 : Forall (fun p => endswith p "_pixelated.png" = true
                        \/ (args_spritemap args = true /\
                            p = path_join (args_output args) "spritemap.png"))
                 (saved_paths out2)).
  { clear - Hsub. revert Hsub. generalize (saved_paths out2). intros l.
    generalize (file :: rest) as fl. intros fl Hsub.
    remember (map (fun f => output_path_of f (args_output args)) fl) as ps eqn:Eps.
    revert fl Eps. induction Hsub as [|a l1 l2 Hs IH|a l1 l2 Hs IH]; intros fl Eps.
    - constructor.
    - destruct fl as [|f fl]; [discriminate|]. injection Eps as _ Eps. eauto.
    - destruct fl as [|f fl]; [discriminate|]. injection Eps as Ea Eps.
      constructor; [|eauto]. left. subst a.
      destruct (output_path_suffix f (args_output args)) as [pre ->].
      apply StringFacts.endswith_spec. eauto. }
  destruct (args_spritemap args) eqn:Hflag.
  - pose proof (generate_spritemap_in_saved_paths w2 outs (args_output args)) as H3.
    destruct (generate_spritemap_in w2 outs (args_output args)) as [[w3 out3] r].
    cbn [fst snd] in H3. intros [= <- <- <-].
    rewrite !saved_paths_app, H0, Hg. cbn [app].
    apply Forall_app. split; [exact H2|].
    apply Forall_forall. intros p Hin. apply H3 in Hin as [<-|[]]. auto.
  - intros [= <- <- <-]. rewrite !saved_paths_app, H0, Hg. cbn [app]. exact H2.
Qed.

End MainFacts.

Section ReopenFacts.
Context {core : ImagingCore} {World : Type} {fs : FileSystem World}.

Lemma saved_images_app (a b : list event) :
  saved_images (a ++ b) = saved_images a ++ saved_images b.
Proof. unfold saved_images. apply flat_map_app. Qed.

(** The three ways a call of [process_single_image] can go. *)
Lemma process_single_image_cases (w w1 : World) (filepath output_dir : string)
    (pixel_size : Z) (auto_adjust : bool) (evs : list event) (out : option string) :
  process_single_image w filepath output_dir pixel_size auto_adjust = (w1, evs, out) ->
  (saved_paths evs = [] /\ saved_images evs = [] /\
   (w1 = w \/ exists result,
       w1 = fst (image_save w (output_path_of filepath output_dir) result)))
  \/ (exists result,
        image_save w (output_path_of filepath output_dir) result = (w1, Ok tt) /\
        saved_paths evs = [output_path_of filepath output_dir] /\
        saved_images evs = [result]).
Proof.
  unfold process_single_image.
  destruct (image_open w filepath) as [img|e]; [|intros [= <- <- <-]; left; auto].
  destruct (pixelate_image img pixel_size auto_adjust) as [result|e];
    [|intros [= <- <- <-]; left; auto].
  destruct (image_save w (output_path_of filepath output_dir) result)
    as [w2 [[]|e]] eqn:Es; intros [= <- <- <-].
  - right. exists result. auto.
  - left. split; [reflexivity|]. split; [reflexivity|].
    right. exists result. now rewrite Es.
Qed.

Lemma load_images_all_open (open : string -> result Image) (paths : list string)
    (images : list Image) :
  map open paths = map Ok images -> load_images open paths = (images, []).
Proof.
  revert images. induction paths as [|p ps IH]; intros [|im ims] H;
    try discriminate; [reflexivity|].
  cbn [map] in H. injection H as Hp Hps.
  cbn [load_images]. rewrite (IH ims Hps), Hp. reflexivity.
Qed.

(** On a file system that gives back what was written and where writing
    one path leaves the others alone, and when no two input files share an
    output name, the paths handed to [generate_spritemap] open as exactly
    the images that were written, in order. *)
Lemma process_files_reopen (w w' : World) (image_files : list string) (args : Args)
    (evs : list event) (output_files : list string) :
  (forall w0 p im w1, image_save w0 p im = (w1, Ok tt) -> image_open w1 p = Ok im) ->
  (forall w0 p im q, q <> p -> image_open (fst (image_save w0 p im)) q = image_open w0 q) ->
  NoDup (map (fun f => output_path_of f (args_output args)) image_files) ->
  process_files w image_files args [] = (w', evs, output_files) ->
  load_images (image_open w') output_files = (saved_images evs, []).
Proof.
  intros Hread Hframe Hnodup E.
  pose proof (process_files_spec image_files args w []) as Hspec.
  rewrite E in Hspec. destruct Hspec as [Hout _]. cbn [app] in Hout. subst output_files.
  apply load_images_all_open.
  enough (G : forall files w0 acc w1 evs1 outs,
             NoDup (map (fun f => output_path_of f (args_output args)) files) ->
             process_files w0 files args acc = (w1, evs1, outs) ->
             map (image_open w1) (saved_paths evs1) = map Ok (saved_images evs1) /\
             forall q, ~ In q (map (fun f => output_path_of f (args_output args)) files) ->
                       image_open w1 q = image_open w0 q)
    by (eapply G; eassumption).
  clear E Hnodup. intros files. induction files as [|file rest IH];
    intros w0 acc w1 evs1 outs Hnd; cbn [process_files map].
  - intros [= <- <- <-]. auto.
  - inversion Hnd as [|x l Hnotin Hnd']; subst.
    destruct (process_single_image w0 file (args_output args) (args_pixel_size args)
                (args_auto_adjust args)) as [[wa eva] outa] eqn:Ea.
    destruct (process_files wa rest args _) as [[wb evb] outb] eqn:Eb.
    intros [= <- <- <-].
    destruct (IH _ _ _ _ _ Hnd' Eb) as [IHmap IHframe].
    rewrite saved_paths_app, saved_images_app, !map_app.
    apply process_single_image_cases in Ea
      as [(Hp & Hi & Hw)|(result & Hs & Hp & Hi)]; rewrite Hp, Hi; cbn [map app].
    + split; [exact IHmap|].
      intros q Hq.
      assert (Hq1 : q <> output_path_of file (args_output args))
        by (intros ->; apply Hq; now left).
      rewrite IHframe by (intros Hin; apply Hq; now right).
      destruct Hw as [->|[result ->]]; [reflexivity|].
      now apply Hframe.
    + split.
      * f_equal; [|exact IHmap].
        rewrite IHframe by exact Hnotin. eapply Hread; eassumption.
      * intros q Hq.
        assert (Hq1 : q <> output_path_of file (args_output args))
          by (intros ->; apply Hq; now left).
        rewrite IHframe by (intros Hin; apply Hq; now right).
        replace wa with (fst (image_save w0 (output_path_of file (args_output args)) result))
          by now rewrite Hs.
        now apply Hframe.
Qed.

End ReopenFacts.

Section PipelineFacts.
Context {core : ImagingCore} {World : Type} {fs : FileSystem World}.

Lemma saved_lengths (evs : list event) :
  List.length (saved_images evs) = List.length (saved_paths evs).
Proof.
  induction evs as [|[line|path im] rest IH]; cbn [saved_images saved_paths flat_map app];
    [reflexivity|exact IH|].
  fold (saved_images rest). fold (saved_paths rest). cbn [List.length]. now rewrite IH.
Qed.

Lemma process_single_image_valid (w w1 : World) (filepath output_dir : string)
    (pixel_size : Z) (auto_adjust : bool) (evs : list event) (out : option string) :
  process_single_image w filepath output_dir pixel_size auto_adjust = (w1, evs, out) ->
  forallb valid_image (saved_images evs) = true.
Proof.
  unfold process_single_image.
  destruct (image_open w filepath) as [img|e]; [|now intros [= <- <- <-]].
  destruct (pixelate_image img pixel_size auto_adjust) as [result|e] eqn:Ep;
    [|now intros [= <- <- <-]].
  destruct (image_save w (output_path_of filepath output_dir) result) as [w2 [[]|e]];
    intros [= <- <- <-]; [|reflexivity].
  cbn. now rewrite (pixelate_image_valid _ _ _ _ Ep).
Qed.

Lemma process_files_valid (image_files : list string) (args : Args) :
  forall (w w' : World) (acc outs : list string) (evs : list event),
    process_files w image_files args acc = (w', evs, outs) ->
    forallb valid_image (saved_images evs) = true.
Proof.
  induction image_files as [|file rest IH]; intros w w' acc outs evs;
    cbn [process_files].
  - now intros [= <- <- <-].
  - destruct (process_single_image w file (args_output args) (args_pixel_size args)
                (args_auto_adjust args)) as [[wa eva] outa] eqn:Ea.
    destruct (process_files wa rest args _) as [[wb evb] outb] eqn:Eb.
    intros [= <- <- <-].
    rewrite saved_images_app, forallb_app.
    rewrite (process_single_image_valid _ _ _ _ _ _ _ _ Ea), (IH _ _ _ _ _ Eb).
    reflexivity.
Qed.

(** The whole pipeline of [main] with the spritemap option.  On a file
    system that gives back what was written and where writing one path
    leaves the others alone, when no two input files share an output name:
    the output files reopen as the pixelated images, in the order of
    processing; the canvas of these images can always be built; what
    [generate_spritemap] does is save it, and only that save can fail. *)
Theorem spritemap_of_outputs (w w2 : World) (image_files : list string) (args : Args)
    (evs : list event) (output_files : list string) :
  (forall w0 p im w1, image_save w0 p im = (w1, Ok tt) -> image_open w1 p = Ok im) ->
  (forall w0 p im q, q <> p -> image_open (fst (image_save w0 p im)) q = image_open w0 q) ->
  NoDup (map (fun f => output_path_of f (args_output args)) image_files) ->
  process_files w image_files args [] = (w2, evs, output_files) ->
  1 <= Z.of_nat (List.length output_files) < 2 ^ 52 ->
  load_images (image_open w2) output_files = (saved_images evs, []) /\
  exists spritemap,
    build_spritemap (saved_images evs) = Ok spritemap /\
    generate_spritemap_in w2 output_files (args_output args)
    = match image_save w2 (path_join (args_output args) "spritemap.png") spritemap with
      | (w3, Ok _) =>
          (w3, [Save (path_join (args_output args) "spritemap.png") spritemap;
                Print ("Spritemap saved: "
                       ++ path_join (args_output args) "spritemap.png")%string],
           Ok tt)
      | (w3, Err e) => (w3, [], Err e)
      end.
Proof.
  intros Hread Hframe Hnodup E HN.
  pose proof (process_files_reopen w w2 image_files args evs output_files
                Hread Hframe Hnodup E) as Hload.
  split; [exact Hload|].
  pose proof (process_files_spec image_files args w []) as Hspec.
  rewrite E in Hspec. destruct Hspec as [Hout _]. cbn [app] in Hout.
  assert (Hlen : List.length (saved_images evs) = List.length output_files)
    by (rewrite Hout; apply saved_lengths).
  destruct (build_spritemap_ok (saved_images evs)) as (lay & ops & _ & _ & Eb & _).
  { rewrite Hlen. exact HN. }
  { exact (process_files_valid _ _ _ _ _ _ _ E). }
  eexists. split; [exact Eb|].
  unfold generate_spritemap_in.
  rewrite (generate_spritemap_saves (image_open w2) output_files (args_output args)
             "spritemap.png" (saved_images evs) [] _ Hload) by
    (exact Eb || (destruct (saved_images evs); [cbn in Hlen; lia|discriminate])).
  cbn [app commit].
  destruct (image_save w2 _ _) as [w3 [[]|e]]; reflexivity.
Qed.

End PipelineFacts.

(** ** The spritemap claims on the reference core *)

#[local] Existing Instance Reference.core.

Lemma generate_spritemap_grid_witness :
  (load_images Reference.open Reference.listing
   = (Reference.sprites,
      [Print "Error opening missing.tga for spritemap: No such file or directory: missing.tga"]) /\
   1 <= Z.of_nat (List.length Reference.sprites) < 2 ^ 52 /\
   forallb valid_image Reference.sprites = true) /\
  exists lay spritemap,
    spritemap_layout Reference.sprites = Ok lay /\
    (In (cell_width lay) (map width Reference.sprites) /\
     Forall (fun im => width im <= cell_width lay) Reference.sprites) /\
    (In (cell_height lay) (map height Reference.sprites) /\
     Forall (fun im => height im <= cell_height lay) Reference.sprites) /\
    count lay = Z.of_nat (List.length Reference.sprites) /\
    (cols lay = ceil_sqrt (count lay) /\ 1 <= cols lay /\
     (cols lay - 1) * (cols lay - 1) < count lay <= cols lay * cols lay) /\
    (rows lay = ceil_div (count lay) (cols lay) /\ 1 <= rows lay /\
     cols lay * (rows lay - 1) < count lay <= cols lay * rows lay) /\
    build_spritemap Reference.sprites = Ok spritemap /\
    width spritemap = cols lay * cell_width lay /\
    height spritemap = rows lay * cell_height lay /\
    generate_spritemap Reference.open Reference.listing "out" "spritemap.png"
    = (([Print "Error opening missing.tga for spritemap: No such file or directory: missing.tga"]
        ++ [Save (path_join "out" "spritemap.png") spritemap;
            Print ("Spritemap saved: " ++ path_join "out" "spritemap.png")%string])%list,
       Ok tt).
Proof.
  split; [split; [reflexivity|split; [simpl; lia|reflexivity]]|].
  apply (generate_spritemap_grid Reference.open Reference.listing "out" "spritemap.png"
           Reference.sprites);
    [reflexivity | simpl; lia | reflexivity].
Defined.

Lemma spritemap_positions_witness :
  (1 <= Z.of_nat (List.length Reference.sprites) < 2 ^ 52 /\
   forallb valid_image Reference.sprites = true) /\
  exists lay canvas ops,
    spritemap_layout Reference.sprites = Ok lay /\
    Image_new Mode_RGBA (spritemap_width lay, spritemap_height lay) [0; 0; 0; 0]
    = Ok canvas /\
    placements lay (enumerate 0 Reference.sprites) = Ok ops /\
    build_spritemap Reference.sprites = Ok (paste_all canvas ops) /\
    map fst ops = Reference.sprites /\
    (forall idx img, nth_error Reference.sprites idx = Some img ->
       nth_error ops idx
       = Some (img,
               ((Z.of_nat idx mod cols lay) * cell_width lay
                + (cell_width lay - width img) / 2,
                (Z.of_nat idx / cols lay) * cell_height lay
                + (cell_height lay - height img) / 2))) /\
    (forall idx img, nth_error Reference.sprites idx = Some img ->
       let x := (Z.of_nat idx mod cols lay) * cell_width lay
                + (cell_width lay - width img) / 2 in
       let y := (Z.of_nat idx / cols lay) * cell_height lay
                + (cell_height lay - height img) / 2 in
       forall px py, x <= px < x + width img -> y <= py < y + height img ->
         getpixel (paste_all canvas ops) px py
         = getpixel (as_mode img Mode_RGBA) (px - x) (py - y)) /\
    (forall a b c d, Reference.sprites = [a; b; c; d] ->
       size a = (10, 10) -> size b = (8, 8) -> size c = (10, 6) -> size d = (8, 10) ->
       nth_error ops 1 = Some (b, (11, 1)) /\
       forall px py, 11 <= px < 19 -> 1 <= py < 9 ->
         getpixel (paste_all canvas ops) px py
         = getpixel (as_mode b Mode_RGBA) (px - 11) (py - 1)).
Proof.
  split; [split; [simpl; lia|reflexivity]|].
  apply (spritemap_positions Reference.sprites); [simpl; lia | reflexivity].
Defined.

Lemma spritemap_boxes_witness :
  (1 <= Z.of_nat (List.length Reference.sprites) < 2 ^ 52 /\
   forallb valid_image Reference.sprites = true) /\
  exists lay ops spritemap,
    spritemap_layout Reference.sprites = Ok lay /\
    placements lay (enumerate 0 Reference.sprites) = Ok ops /\
    build_spritemap Reference.sprites = Ok spritemap /\
    forall idx img x y, nth_error ops idx = Some (img, (x, y)) ->
      let col := Z.of_nat idx mod cols lay in
      let row := Z.of_nat idx / cols lay in
      (0 <= col < cols lay /\ 0 <= row < rows lay) /\
      (0 <= (cell_width lay - width img) / 2 /\ 0 <= (cell_height lay - height img) / 2) /\
      (col * cell_width lay <= x /\ x + width img <= (col + 1) * cell_width lay) /\
      (row * cell_height lay <= y /\ y + height img <= (row + 1) * cell_height lay) /\
      (0 <= x /\ x + width img <= width spritemap) /\
      (0 <= y /\ y + height img <= height spritemap) /\
      (forall idx' img' x' y', idx' <> idx ->
         nth_error ops idx' = Some (img', (x', y')) ->
         forall px py, in_box img x y px py = true ->
                       in_box img' x' y' px py = false) /\
      (forall px py, in_box img x y px py = true ->
         getpixel spritemap px py
         = getpixel (as_mode img Mode_RGBA) (px - x) (py - y)).
Proof.
  split; [split; [simpl; lia|reflexivity]|].
  apply (spritemap_boxes Reference.sprites); [simpl; lia | reflexivity].
Defined.

(** The example of the specification, run: a 2x2 grid of 10x10 cells on a
    20x20 canvas, the pastes at (0,0), (11,1), (0,12) and (11,10). *)
Example spritemap_example :
  exists lay ops spritemap,
    spritemap_layout Reference.sprites = Ok lay /\
    (cell_width lay, cell_height lay, count lay, cols lay, rows lay) = (10, 10, 4, 2, 2) /\
    placements lay (enumerate 0 Reference.sprites) = Ok ops /\
    map snd ops = [(0, 0); (11, 1); (0, 12); (11, 10)] /\
    build_spritemap Reference.sprites = Ok spritemap /\
    size spritemap = (20, 20) /\
    getpixel spritemap 10 1 = [0; 0; 0; 0] /\
    getpixel spritemap 11 1 = [0; 255; 0; 255].
Proof.
  eexists _, _, _. split; [vm_compute; reflexivity|].
  split; [reflexivity|]. split; [vm_compute; reflexivity|].
  split; [reflexivity|]. split; [vm_compute; reflexivity|].
  repeat split; reflexivity.
Qed.

(** Why the bound on the number of images: beyond [2^52] the rounded
    square root can fall on the integer below the exact one, and
    [math.ceil] then gives one column less than [ceil(sqrt(count))]. *)
Example grid_shape_large_count :
  grid_shape 4503599761588226 = Ok (67108865, 67108866) /\
  ceil_sqrt 4503599761588226 = 67108866.
Proof. split; vm_compute; reflexivity. Qed.


(** ** The further properties on the reference core and file system *)

#[local] Existing Instance ReferenceFS.fs.

Lemma reference_fs_read_after_write (w0 : ReferenceFS.world) (p : string) (im : Image)
    (w1 : ReferenceFS.world) :
  image_save w0 p im = (w1, Ok tt) -> image_open w1 p = Ok im.
Proof.
  cbn. unfold ReferenceFS.write. intros [= <-].
  unfold ReferenceFS.read, ReferenceFS.lookup. cbn. now rewrite String.eqb_refl.
Qed.

Lemma reference_fs_write_frame (w0 : ReferenceFS.world) (p : string) (im : Image)
    (q : string) :
  q <> p -> image_open (fst (image_save w0 p im)) q = image_open w0 q.
Proof.
  intros Hq. cbn. unfold ReferenceFS.read, ReferenceFS.lookup. cbn.
  apply String.eqb_neq in Hq. rewrite String.eqb_sym in Hq. now rewrite Hq.
Qed.


Lemma pixelate_image_ok_iff_witness :
  (1 <= width Reference.ramp /\ 1 <= height Reference.ramp) /\
  is_ok (pixelate_image Reference.ramp 2 true)
  = negb (2 =? 0) && (negb true || autocontrast_supported (mode Reference.ramp)).
Proof.
  split; [simpl; lia|].
  apply (pixelate_image_ok_iff Reference.ramp 2 true); simpl; lia.
Defined.

Lemma pixelate_small_image_bounds_witness :
  (1 <= width Reference.grey100 /\ 1 <= height Reference.grey100 /\ 1 <= 16) /\
  exists st, pixelate_resize Reference.grey100 16 = Ok st /\
    (1 <= width (small_image st) <= width Reference.grey100 /\
     1 <= height (small_image st) <= height Reference.grey100) /\
    (16 <= width Reference.grey100 ->
     width (small_image st) * 16 <= width Reference.grey100
       < (width (small_image st) + 1) * 16) /\
    (16 <= height Reference.grey100 ->
     height (small_image st) * 16 <= height Reference.grey100
       < (height (small_image st) + 1) * 16) /\
    (width Reference.grey100 <= 16 -> width (small_image st) = 1) /\
    (height Reference.grey100 <= 16 -> height (small_image st) = 1).
Proof.
  split; [simpl; lia|].
  apply (pixelate_small_image_bounds Reference.grey100 16); simpl; lia.
Defined.

Lemma spritemap_nearly_square_witness :
  1 <= Z.of_nat (List.length Reference.sprites) < 2 ^ 52 /\
  exists lay, spritemap_layout Reference.sprites = Ok lay /\
    rows lay <= cols lay <= rows lay + 1.
Proof.
  split; [simpl; lia|].
  apply (spritemap_nearly_square Reference.sprites). simpl; lia.
Defined.

Lemma spritemap_background_witness :
  (1 <= Z.of_nat (List.length Reference.sprites) < 2 ^ 52 /\
   forallb valid_image Reference.sprites = true) /\
  exists lay ops spritemap,
    spritemap_layout Reference.sprites = Ok lay /\
    placements lay (enumerate 0 Reference.sprites) = Ok ops /\
    build_spritemap Reference.sprites = Ok spritemap /\
    mode spritemap = Mode_RGBA /\
    forall px py,
      (forall img x y, In (img, (x, y)) ops -> in_box img x y px py = false) ->
      getpixel spritemap px py = [0; 0; 0; 0].
Proof.
  split; [split; [simpl; lia|reflexivity]|].
  apply (spritemap_background Reference.sprites); [simpl; lia|reflexivity].
Defined.

Lemma spritemap_single_image_witness :
  valid_image Reference.badge = true /\
  exists spritemap,
    build_spritemap [Reference.badge] = Ok spritemap /\
    mode spritemap = Mode_RGBA /\
    width spritemap = width Reference.badge /\
    height spritemap = height Reference.badge /\
    forall px py, 0 <= px < width Reference.badge -> 0 <= py < height Reference.badge ->
      getpixel spritemap px py = getpixel (as_mode Reference.badge Mode_RGBA) px py.
Proof.
  split; [reflexivity|].
  apply (spritemap_single_image Reference.badge). reflexivity.
Defined.

Lemma spritemap_uniform_sizes_witness :
  (1 <= Z.of_nat (List.length [Reference.badge; Reference.badge; Reference.badge])
     < 2 ^ 52 /\
   0 <= 4 /\ 0 <= 4 /\
   Forall (fun im => size im = (4, 4))
          [Reference.badge; Reference.badge; Reference.badge]) /\
  exists lay ops spritemap,
    spritemap_layout [Reference.badge; Reference.badge; Reference.badge] = Ok lay /\
    cell_width lay = 4 /\ cell_height lay = 4 /\
    placements lay (enumerate 0 [Reference.badge; Reference.badge; Reference.badge])
    = Ok ops /\
    (forall idx img,
       nth_error [Reference.badge; Reference.badge; Reference.badge] idx = Some img ->
       nth_error ops idx
       = Some (img, ((Z.of_nat idx mod cols lay) * 4, (Z.of_nat idx / cols lay) * 4))) /\
    build_spritemap [Reference.badge; Reference.badge; Reference.badge] = Ok spritemap /\
    width spritemap = cols lay * 4 /\ height spritemap = rows lay * 4 /\
    (forall idx img,
       nth_error [Reference.badge; Reference.badge; Reference.badge] idx = Some img ->
       let x := (Z.of_nat idx mod cols lay) * 4 in
       let y := (Z.of_nat idx / cols lay) * 4 in
       forall px py, x <= px < x + 4 -> y <= py < y + 4 ->
         getpixel spritemap px py
         = getpixel (as_mode img Mode_RGBA) (px - x) (py - y)).
Proof.
  split; [split; [simpl; lia|split; [lia|split; [lia|repeat constructor]]]|].
  apply (spritemap_uniform_sizes [Reference.badge; Reference.badge; Reference.badge] 4 4);
    [simpl; lia | lia | lia | repeat constructor].
Defined.

Lemma get_image_files_directory_witness :
  (isfile ReferenceFS.studio "art" = false /\ isdir ReferenceFS.studio "art" = true /\
   listdir ReferenceFS.studio "art"
   = Ok ["hero.png"; "notes.txt"; "LOGO.TGA"; "broken.png"; "old"]%string) /\
  get_image_files ReferenceFS.studio "art"
  = ([], Ok (map (path_join "art")
               (filter (fun entry =>
                          isfile ReferenceFS.studio (path_join "art" entry)
                          && endswith_any (lower entry) SUPPORTED_EXTENSIONS)
                       ["hero.png"; "notes.txt"; "LOGO.TGA"; "broken.png"; "old"]%string))).
Proof.
  split; [repeat split|].
  apply (get_image_files_directory ReferenceFS.studio "art"); reflexivity.
Defined.

Lemma get_image_files_supported_witness :
  get_image_files ReferenceFS.studio "art"
  = ([], Ok ["art/hero.png"; "art/LOGO.TGA"; "art/broken.png"]%string) /\
  Forall (fun p => isfile ReferenceFS.studio p = true
                   /\ endswith_any (lower p) SUPPORTED_EXTENSIONS = true)
         ["art/hero.png"; "art/LOGO.TGA"; "art/broken.png"]%string.
Proof.
  split; [reflexivity|].
  apply (get_image_files_supported ReferenceFS.studio "art" []). reflexivity.
Defined.

Lemma get_image_files_any_case_witness :
  (isfile ReferenceFS.studio ("art/LOGO" ++ ".TGA") = true /\
   In (lower ".TGA") SUPPORTED_EXTENSIONS) /\
  get_image_files ReferenceFS.studio ("art/LOGO" ++ ".TGA")
  = ([], Ok [("art/LOGO" ++ ".TGA")%string]).
Proof.
  split; [split; [reflexivity|simpl; auto]|].
  apply (get_image_files_any_case ReferenceFS.studio "art/LOGO" ".TGA");
    [reflexivity|simpl; auto].
Defined.

Lemma output_path_name_witness :
  (rfind "/" "hero" = -1 /\ all_dots "hero" = false /\
   rfind "/" "tga" = -1 /\ rfind "." "tga" = -1) /\
  output_path_of ("hero" ++ String "." "tga") "out"
  = path_join "out" ("hero" ++ "_pixelated.png") /\
  forall d, output_path_of (d ++ String "/" ("hero" ++ String "." "tga")) "out"
            = path_join "out" ("hero" ++ "_pixelated.png").
Proof.
  split; [repeat split|].
  apply (output_path_name "hero" "tga" "out"); reflexivity.
Defined.

Lemma process_single_image_result_witness :
  process_single_image ReferenceFS.studio "art/hero.png" "out" 2 false
  = (fst (fst (process_single_image ReferenceFS.studio "art/hero.png" "out" 2 false)),
     snd (fst (process_single_image ReferenceFS.studio "art/hero.png" "out" 2 false)),
     Some "out/hero_pixelated.png"%string) /\
  ("out/hero_pixelated.png"%string = output_path_of "art/hero.png" "out" /\
   exists img result,
     image_open ReferenceFS.studio "art/hero.png" = Ok img /\
     pixelate_image img 2 false = Ok result /\
     image_save ReferenceFS.studio "out/hero_pixelated.png" result
     = (fst (fst (process_single_image ReferenceFS.studio "art/hero.png" "out" 2 false)),
        Ok tt) /\
     filter is_save
       (snd (fst (process_single_image ReferenceFS.studio "art/hero.png" "out" 2 false)))
     = [Save "out/hero_pixelated.png" result]).
Proof.
  split; [reflexivity|].
  eapply (process_single_image_result ReferenceFS.studio _ "art/hero.png" "out" 2 false
           _ (Some "out/hero_pixelated.png"%string)).
  reflexivity.
Defined.

Lemma process_files_saves_witness :
  process_files ReferenceFS.studio ["art/hero.png"; "art/broken.png"; "art/LOGO.TGA"]%string
    (ReferenceFS.args_of "art" 2 false false) []
  = (fst (fst (process_files ReferenceFS.studio
                 ["art/hero.png"; "art/broken.png"; "art/LOGO.TGA"]%string
                 (ReferenceFS.args_of "art" 2 false false) [])),
     snd (fst (process_files ReferenceFS.studio
                 ["art/hero.png"; "art/broken.png"; "art/LOGO.TGA"]%string
                 (ReferenceFS.args_of "art" 2 false false) [])),
     ["out/hero_pixelated.png"; "out/LOGO_pixelated.png"]%string) /\
  ["out/hero_pixelated.png"; "out/LOGO_pixelated.png"]%string
  = saved_paths
      (snd (fst (process_files ReferenceFS.studio
                   ["art/hero.png"; "art/broken.png"; "art/LOGO.TGA"]%string
                   (ReferenceFS.args_of "art" 2 false false) []))) /\
  subseq ["out/hero_pixelated.png"; "out/LOGO_pixelated.png"]%string
         (map (fun f => output_path_of f
                          (args_output (ReferenceFS.args_of "art" 2 false false)))
              ["art/hero.png"; "art/broken.png"; "art/LOGO.TGA"]%string).
Proof.
  split; [reflexivity|].
  eapply (process_files_saves ReferenceFS.studio _
           ["art/hero.png"; "art/broken.png"; "art/LOGO.TGA"]%string
           (ReferenceFS.args_of "art" 2 false false)).
  reflexivity.
Defined.

Lemma main_pixel_size_zero_witness :
  (args_pixel_size (ReferenceFS.args_of "art" 0 true false) = 0 /\
   main ReferenceFS.studio (ReferenceFS.args_of "art" 0 true false)
   = (ReferenceFS.studio,
      snd (fst (main ReferenceFS.studio (ReferenceFS.args_of "art" 0 true false))),
      Finished)) /\
  saved_paths (snd (fst (main ReferenceFS.studio (ReferenceFS.args_of "art" 0 true false))))
  = [] /\
  (path_exists ReferenceFS.studio (args_output (ReferenceFS.args_of "art" 0 true false))
   = true ->
   forall out file rest,
     get_image_files ReferenceFS.studio (args_input (ReferenceFS.args_of "art" 0 true false))
     = (out, Ok (file :: rest)) ->
     ReferenceFS.studio = ReferenceFS.studio /\ Finished = Finished).
Proof.
  split; [split; reflexivity|].
  apply (main_pixel_size_zero ReferenceFS.studio ReferenceFS.studio
           (ReferenceFS.args_of "art" 0 true false)); reflexivity.
Defined.


Lemma main_writes_witness :
  main ReferenceFS.studio (ReferenceFS.args_of "art" 2 true false)
  = (fst (fst (main ReferenceFS.studio (ReferenceFS.args_of "art" 2 true false))),
     snd (fst (main ReferenceFS.studio (ReferenceFS.args_of "art" 2 true false))),
     Finished) /\
  Forall (fun p => endswith p "_pixelated.png" = true \/
                   (args_spritemap (ReferenceFS.args_of "art" 2 true false) = true /\
                    p = path_join (args_output (ReferenceFS.args_of "art" 2 true false))
                          "spritemap.png"))
         (saved_paths
            (snd (fst (main ReferenceFS.studio (ReferenceFS.args_of "art" 2 true false))))).
Proof.
  split; [reflexivity|].
  eapply (main_writes ReferenceFS.studio _ (ReferenceFS.args_of "art" 2 true false) _
           Finished).
  reflexivity.
Defined.

Lemma spritemap_of_outputs_witness :
  ((forall w0 p im w1, image_save w0 p im = (w1, Ok tt) -> image_open w1 p = Ok im) /\
   (forall w0 p im q, q <> p ->
      image_open (fst (image_save w0 p im)) q = image_open w0 q) /\
   NoDup (map (fun f => output_path_of f
                          (args_output (ReferenceFS.args_of "art" 2 true false)))
              ["art/hero.png"; "art/LOGO.TGA"]%string) /\
   process_files ReferenceFS.studio ["art/hero.png"; "art/LOGO.TGA"]%string
     (ReferenceFS.args_of "art" 2 true false) []
   = (fst (fst (process_files ReferenceFS.studio ["art/hero.png"; "art/LOGO.TGA"]%string
                  (ReferenceFS.args_of "art" 2 true false) [])),
      snd (fst (process_files ReferenceFS.studio ["art/hero.png"; "art/LOGO.TGA"]%string
                  (ReferenceFS.args_of "art" 2 true false) [])),
      ["out/hero_pixelated.png"; "out/LOGO_pixelated.png"]%string) /\
   1 <= Z.of_nat (List.length ["out/hero_pixelated.png"; "out/LOGO_pixelated.png"]%string)
     < 2 ^ 52) /\
  load_images
    (image_open
       (fst (fst (process_files ReferenceFS.studio ["art/hero.png"; "art/LOGO.TGA"]%string
                    (ReferenceFS.args_of "art" 2 true false) []))))
    ["out/hero_pixelated.png"; "out/LOGO_pixelated.png"]%string
  = (saved_images
       (snd (fst (process_files ReferenceFS.studio ["art/hero.png"; "art/LOGO.TGA"]%string
                    (ReferenceFS.args_of "art" 2 true false) []))), []) /\
  exists spritemap,
    build_spritemap
      (saved_images
         (snd (fst (process_files ReferenceFS.studio
                      ["art/hero.png"; "art/LOGO.TGA"]%string
                      (ReferenceFS.args_of "art" 2 true false) []))))
    = Ok spritemap /\
    generate_spritemap_in
      (fst (fst (process_files ReferenceFS.studio ["art/hero.png"; "art/LOGO.TGA"]%string
                   (ReferenceFS.args_of "art" 2 true false) [])))
      ["out/hero_pixelated.png"; "out/LOGO_pixelated.png"]%string
      (args_output (ReferenceFS.args_of "art" 2 true false))
    = match image_save
              (fst (fst (process_files ReferenceFS.studio
                           ["art/hero.png"; "art/LOGO.TGA"]%string
                           (ReferenceFS.args_of "art" 2 true false) [])))
              (path_join (args_output (ReferenceFS.args_of "art" 2 true false))
                 "spritemap.png") spritemap with
      | (w3, Ok _) =>
          (w3, [Save (path_join (args_output (ReferenceFS.args_of "art" 2 true false))
                        "spritemap.png") spritemap;
                Print ("Spritemap saved: "
                       ++ path_join (args_output (ReferenceFS.args_of "art" 2 true false))
                            "spritemap.png")%string],
           Ok tt)
      | (w3, Err e) => (w3, [], Err e)
      end.
Proof.
  assert (Hnodup : NoDup (map (fun f => output_path_of f
                                  (args_output (ReferenceFS.args_of "art" 2 true false)))
                            ["art/hero.png"; "art/LOGO.TGA"]%string)).
  { repeat constructor; simpl; intuition discriminate. }
  split.
  { split; [exact reference_fs_read_after_write|].
    split; [exact reference_fs_write_frame|].
    split; [exact Hnodup|]. split; [reflexivity|simpl; lia]. }
  eapply (spritemap_of_outputs ReferenceFS.studio _ ["art/hero.png"; "art/LOGO.TGA"]%string
           (ReferenceFS.args_of "art" 2 true false));
    [exact reference_fs_read_after_write | exact reference_fs_write_frame
    | exact Hnodup | reflexivity | simpl; lia].
Defined.
